(** * fly-build-utils: process orchestration and compilation lifecycle

    A shallow embedding of [src/index.js]: the process runner [run], the
    batch runner [runAsync], bundle discovery [getServers], the file
    operations [copy] and [move], the two compile entry points [compile]
    and [compileAndWatch], and the diagnostics reporter [logWebpackData].

    Conventions of the embedding.
    - An optional property of a JS object is an [option]; [None] is
      [undefined].  [a || b] on a string keeps [a] only when it is a
      non-empty string; on an object or array it keeps [a] whenever it is
      there.
    - [process.env] is a finite map from names to strings.
    - A promise is a cell that is pending, fulfilled or rejected; the
      resolving function handed to the executor settles a pending cell and
      does nothing on a settled one.  The cell also counts the calls of
      its resolving function, which the source does not store: it is
      there to tell "called again" from "settled again".
    - A child process, and the build engine, talk back through events: the
      model runs the registered callback over the list of events the
      outside world delivers, in the order it delivers them, after the
      executor of the promise has returned.
    - The calls made inside the executor of a promise, to [child_process]
      and to the build engine, may throw, and the promise is rejected
      then.  The modules [Runner], [Batch], [Static] and [Compiler] have
      the code from the point where these calls have returned; the
      module [Executor] has the calls as a whole, with an answer of the
      outside that is either a return or a throw. *)

From stdpp Require Import base option strings list gmap.

Open Scope string_scope.

(** ** JavaScript values that travel as event payloads *)

Inductive JsVal :=
  | JUndefined
  | JNull
  | JNum (n : Z)
  | JStr (s : string)
  | JError (msg : string).

Global Instance JsVal_eq_dec : EqDecision JsVal.
Proof. solve_decision. Defined.

(** [a || b] for a string [a] that may be undefined. *)
Definition str_or (a : option string) (b : string) : string :=
  match a with
  | Some s => if decide (s = "") then b else s
  | None => b
  end.

(** [a || b] for an object or array [a] that may be undefined. *)
Definition obj_or {A} (a : option A) (b : A) : A :=
  match a with
  | Some x => x
  | None => b
  end.

(** ** Promises *)

Inductive Settled (A : Type) :=
  | Pending
  | Fulfilled (v : A)
  | Rejected (reason : JsVal).
Arguments Pending {A}.
Arguments Fulfilled {A} v.
Arguments Rejected {A} reason.

Record Promise (A : Type) := mkPromise {
  settled : Settled A;
  resolve_calls : nat;
}.
Arguments mkPromise {A} _ _.
Arguments settled {A} _.
Arguments resolve_calls {A} _.

(** What [new Promise(executor)] holds before its executor has called
    anything. *)
Definition new_promise {A} : Promise A := mkPromise Pending 0.

(** The resolving function of a promise, called with a plain value. *)
Definition resolve {A} (v : A) (p : Promise A) : Promise A :=
  mkPromise
    (match settled p with
     | Pending => Fulfilled v
     | s => s
     end)
    (S (resolve_calls p)).

(** The rejecting function of a promise. *)
Definition reject {A} (reason : JsVal) (p : Promise A) : Promise A :=
  mkPromise
    (match settled p with
     | Pending => Rejected reason
     | s => s
     end)
    (resolve_calls p).

Definition is_pending {A} (p : Promise A) : bool :=
  match settled p with Pending => true | _ => false end.

Definition is_rejected {A} (p : Promise A) : bool :=
  match settled p with Rejected _ => true | _ => false end.

(** ** ProcessRunner: [run] *)

Module Runner.

(** The [params] object of [run]. *)
Record Params := mkParams {
  method : option string;
  args : option (list string);
  resolveOn : option string;
}.

(** [{}] *)
Definition no_params : Params := mkParams None None None.

Global Instance Params_eq_dec : EqDecision Params.
Proof. solve_decision. Defined.

Abbreviation Env := (gmap string string).

(** What reaches [child_process]: the function called and its arguments,
    options included. *)
Inductive Launch :=
  | Fork (script : string) (argv : list string) (silent : bool) (env : Env)
  | Exec (script : string) (env : Env)
  | Spawn (script : string) (argv : list string) (stdio : string) (env : Env).

Global Instance Launch_eq_dec : EqDecision Launch.
Proof. solve_decision. Defined.

Definition launch_env (l : Launch) : Env :=
  match l with
  | Fork _ _ _ e | Exec _ e | Spawn _ _ _ e => e
  end.

(** [process.env['NODE_ENV'] || 'development'] *)
Definition node_env (penv : Env) : string :=
  str_or (penv !! "NODE_ENV") "development".

(** [Object.assign({}, process.env, { NODE_ENV })] *)
Definition child_env (penv : Env) : Env :=
  <["NODE_ENV" := node_env penv]> penv.

(** [params.resolveOn || 'exit'] *)
Definition done_event (params : Params) : string :=
  str_or (resolveOn params) "exit".

(** The [switch (params.method)] of [run]. *)
Definition launch (penv : Env) (script : string) (params : Params) : Launch :=
  let argv := obj_or (args params) [] in
  let env := child_env penv in
  match method params with
  | Some "fork" => Fork script argv false env
  | Some "exec" => Exec script env
  | _ => Spawn script argv "inherit" env
  end.

(** An event of a child process: its name and the first argument its
    listeners are called with. *)
Definition Event : Type := string * JsVal.

(** A [run] whose [child_process] call has handed back its handle: the
    call made, the event its listener is registered for, and the
    promise it returned. *)
Record Running := mkRunning {
  launched : Launch;
  listens : string;
  future : Promise JsVal;
}.

(** [run(script, params)] when the [child_process] call returns;
    [Executor.run] is the whole of it.  [None] is the call without a
    second argument, for which the default [params = {}] applies. *)
Definition run (penv : Env) (script : string) (params : option Params) : Running :=
  let params := obj_or params no_params in
  mkRunning (launch penv script params) (done_event params) new_promise.

(** [.on(done, resolve)]: the listener stays registered, so every firing
    of [done] calls [resolve] with the event's first argument. *)
Definition deliver (ev : Event) (r : Running) : Running :=
  if decide (ev.1 = listens r)
  then mkRunning (launched r) (listens r) (resolve ev.2 (future r))
  else r.

Definition deliver_all (evs : list Event) (r : Running) : Running :=
  foldl (fun r ev => deliver ev r) r evs.

(** The payload of the first firing of an event in a trace. *)
Fixpoint first_firing (name : string) (evs : list Event) : option JsVal :=
  match evs with
  | [] => None
  | ev :: evs => if decide (ev.1 = name) then Some ev.2 else first_firing name evs
  end.

End Runner.

(** ** BatchRunner: [runAsync] *)

Module Batch.
Import Runner.

(** An element of [scripts]: a bare string, or an object with a [script]
    and maybe a [params] property. *)
Inductive Item :=
  | Bare (s : string)
  | Pair (script : string) (params : option Params).

Global Instance Item_eq_dec : EqDecision Item.
Proof. solve_decision. Defined.

(** The first [.map]: the argument list [run] is later spread over.  A
    one-element list has no second argument. *)
Definition normalize (item : Item) : string * option Params :=
  match item with
  | Bare s => (s, None)
  | Pair s p => (s, Some (obj_or p no_params))
  end.

(** The second [.map]: [this.run(...args)]. *)
Definition run_item (penv : Env) (item : Item) : Running :=
  let '(s, p) := normalize item in run penv s p.

(** [Promise.all] over the promises of the children: the array of
    values with one slot per child, the count of slots still to fill,
    and the aggregate promise. *)
Record Joined := mkJoined {
  promises : list Running;
  values : list JsVal;
  remaining : nat;
  all : Promise (list JsVal);
}.

Definition promise_all (rs : list Running) : Joined :=
  mkJoined rs (replicate (length rs) JUndefined) (length rs)
    (match rs with
     | [] => resolve [] new_promise
     | _ => new_promise
     end).

Definition runAsync (penv : Env) (scripts : list Item) : Joined :=
  promise_all (run_item penv <$> scripts).

(** An event of the [i]-th child.  When it settles that child's promise,
    the reaction [Promise.all] attached to it runs: a value goes to slot
    [i] and the aggregate resolves with the array once no slot is left;
    a rejection rejects the aggregate. *)
Definition deliver_to (iev : nat * Event) (j : Joined) : Joined :=
  let '(i, ev) := iev in
  match promises j !! i with
  | None => j
  | Some r =>
      let r' := deliver ev r in
      let cs := <[i := r']> (promises j) in
      match settled (future r), settled (future r') with
      | Pending, Fulfilled v =>
          let vs := <[i := v]> (values j) in
          let n := pred (remaining j) in
          mkJoined cs vs n
            (match n with
             | O => resolve vs (all j)
             | S _ => all j
             end)
      | Pending, Rejected e =>
          mkJoined cs (values j) (remaining j) (reject e (all j))
      | _, _ => mkJoined cs (values j) (remaining j) (all j)
      end
  end.

Definition deliver_all_to (trace : list (nat * Event)) (j : Joined) : Joined :=
  foldl (fun j iev => deliver_to iev j) j trace.

(** The events of child [i] in a trace of the whole batch, in order. *)
Definition events_of (i : nat) (trace : list (nat * Event)) : list Event :=
  omap (fun iev : nat * Event =>
          if decide (iev.1 = i) then Some iev.2 else None) trace.

(** How many of the children have a pending promise. *)
Definition pending_count (rs : list Running) : nat :=
  sum_list ((fun r => if is_pending (future r) then 1 else 0) <$> rs).

(** What slot [i] of the array of values has to hold for child [r]. *)
Definition slot_ok (vs : list JsVal) (i : nat) (r : Running) : Prop :=
  match settled (future r) with
  | Pending => True
  | Fulfilled v => vs !! i = Some v
  | Rejected _ => False
  end.

(** The bookkeeping of [Promise.all] agrees with its children: one slot
    per child, the count is that of the pending children, the slot of a
    fulfilled child holds its value, no child is rejected, and the
    aggregate is pending while the count is positive and fulfilled with
    the array after. *)
Definition joined_ok (j : Joined) : Prop :=
  length (values j) = length (promises j)
  /\ remaining j = pending_count (promises j)
  /\ (forall i r, promises j !! i = Some r -> slot_ok (values j) i r)
  /\ settled (all j) =
     match remaining j with
     | O => Fulfilled (values j)
     | S _ => Pending
     end.

End Batch.

(** ** BundleDiscovery: [getServers] *)

(** Code that may throw and that reads or writes some state [S]. *)
Inductive Completion (A : Type) :=
  | Normal (a : A)
  | Throw (e : JsVal).
Arguments Normal {A} a.
Arguments Throw {A} e.

Definition Js (S A : Type) : Type := S -> Completion A * S.

Definition ret {S A} (a : A) : Js S A := fun s => (Normal a, s).

Definition throw {S A} (e : JsVal) : Js S A := fun s => (Throw e, s).

Definition bind {S A B} (m : Js S A) (k : A -> Js S B) : Js S B :=
  fun s =>
    match m s with
    | (Normal a, s') => k a s'
    | (Throw e, s') => (Throw e, s')
    end.

Notation "'let*' x := m 'in' k" := (bind m (fun x => k))
  (at level 10, x name, m at level 100, k at level 200).
Notation "m ;; k" := (bind m (fun _ => k))
  (at level 100, k at level 200, right associativity).

Module Bundles.
Import Runner Batch.

(** The file system as [getServers] meets it: the working directory, the
    entries of each directory that can be listed, and the directories
    listed so far. *)
Record Fs := mkFs {
  cwd : string;
  dirs : gmap string (list string);
  listed : list string;
}.

(** [path.resolve(process.cwd(), 'app', 'bundles')] for a working
    directory as [process.cwd()] gives it: absolute, with no slash at
    its end unless it is the root. *)
Definition path_resolve (base : string) (segments : list string) : string :=
  foldl (fun acc seg => if decide (acc = "/") then "/" +:+ seg
                        else acc +:+ "/" +:+ seg) base segments.

(** [fs.readdirSync(dir)]: the entries, or the error the file system
    raises. *)
Definition readdirSync (dir : string) : Js Fs (list string) :=
  fun w =>
    let w' := mkFs (cwd w) (dirs w) (listed w ++ [dir]) in
    match dirs w !! dir with
    | Some entries => (Normal entries, w')
    | None => (Throw (JError ("ENOENT: no such file or directory, scandir " +:+ dir)), w')
    end.

Definition process_cwd : Js Fs string := fun w => (Normal (cwd w), w).

(** The [params] object of [getServers]. *)
Record ServerParams := mkServerParams {
  bundles : option (list string);
  hot : option bool;
}.

Definition truthy (b : option bool) : bool :=
  match b with
  | Some true => true
  | _ => false
  end.

Definition hot_server (server : string) : Item :=
  Pair "scripts/nodemon"
    (Some (mkParams None (Some ["build/" +:+ server +:+ ".js"]) None)).

Definition cold_server (server : string) : Item :=
  Pair ("build/" +:+ server +:+ ".js")
    (Some (mkParams (Some "fork") None None)).

(** [getServers(params)]; [None] is the call without an argument. *)
Definition getServers (params : option ServerParams) : Js Fs (list Item) :=
  let params := obj_or params (mkServerParams None None) in
  let* servers :=
    match bundles params with
    | Some bs => ret bs
    | None =>
        let* dir := process_cwd in
        readdirSync (path_resolve dir ["app"; "bundles"])
    end in
  if truthy (hot params)
  then ret (hot_server <$> servers)
  else ret (cold_server <$> servers).

End Bundles.

(** ** CompileController and DiagnosticsReporter *)

Module Compiler.

(** The options literal handed to [stats.toString]. *)
Record StatsOptions := mkStatsOptions {
  colors : bool;
  hash : bool;
  version : bool;
  chunks : bool;
  children : bool;
}.

Definition report_options : StatsOptions :=
  mkStatsOptions true false false false false.

Section Engine.

(** The build engine is opaque: its configuration object, the error it
    hands over when a build fails (an object, so truthy), its stats
    object, and the text that [stats.toString(options)] gives. *)
Context {Config ErrorInfo Stats : Type}.
Variable toString : Stats -> StatsOptions -> string.

(** The call that starts the engine: [webpack(config).run(callback)] or
    [webpack(config).watch({}, callback)]. *)
Inductive EngineCall :=
  | WebpackRun (config : Config)
  | WebpackWatch (config : Config).

(** What the two channels of the host, [this.error] and [this.log], have
    received, oldest first. *)
Inductive Line :=
  | ErrorLine (e : ErrorInfo)
  | LogLine (text : string).

Definition Console : Type := list Line.

Definition this_error (e : ErrorInfo) : Js Console () :=
  fun out => (Normal (), (out ++ [ErrorLine e])%list).

Definition this_log (text : string) : Js Console () :=
  fun out => (Normal (), (out ++ [LogLine text])%list).

(** [stats.toString(options)]; a property read on [undefined] throws. *)
Definition stats_toString {S} (stats : option Stats) (o : StatsOptions) : Js S string :=
  match stats with
  | Some st => ret (toString st o)
  | None => throw (JError "TypeError: Cannot read property 'toString' of undefined")
  end.

Definition logWebpackData (err : option ErrorInfo) (stats : option Stats) : Js Console () :=
  match err with
  | Some e => this_error e
  | None => ret ()
  end ;;
  let* text := stats_toString stats report_options in
  this_log text.

(** The arguments a callback is called with. *)
Definition CallbackArgs : Type := option ErrorInfo * option Stats.

(** What the reporter is to emit for an error that may be missing. *)
Definition error_lines (err : option ErrorInfo) : Console :=
  match err with
  | Some e => [ErrorLine e]
  | None => []
  end.

(** Running reporter code inside a callback whose state has the console
    first, and touching the rest of that state. *)
Definition on_console {T A} (m : Js Console A) : Js (Console * T) A :=
  fun s => let '(c, out) := m s.1 in (c, (out, s.2)).

Definition on_rest {T A} (f : T -> A * T) : Js (Console * T) A :=
  fun s => let '(a, t) := f s.2 in (Normal a, (s.1, t)).

(** *** [compile] *)

(** State of a [compile] call: the console and the returned promise. *)
Definition Compiling : Type := Console * Promise ().

(** [compile(config)], called with the console as it is, when the
    engine call returns: that call and the state the callback will run
    on.  [Executor.compile] is the whole of it. *)
Definition compile (config : Config) (out : Console) : EngineCall * Compiling :=
  (WebpackRun config, (out, new_promise)).

(** The callback given to [webpack(config).run]. *)
Definition compile_callback (a : CallbackArgs) : Js Compiling () :=
  on_console (logWebpackData a.1 a.2) ;;
  on_rest (fun p => ((), resolve () p)).

(** *** [compileAndWatch] *)

(** State of a [compileAndWatch] call: the console, the [initialRun]
    flag and the returned promise. *)
Definition Watching : Type := Console * (bool * Promise ()).

(** [compileAndWatch(config)] when the engine call returns;
    [initialRun] starts as [true].  [Executor.compileAndWatch] is the
    whole of it. *)
Definition compileAndWatch (config : Config) (out : Console) : EngineCall * Watching :=
  (WebpackWatch config, (out, (true, new_promise))).

Definition get_initialRun : Js Watching bool :=
  on_rest (fun s => (s.1, s)).

Definition set_initialRun (b : bool) : Js Watching () :=
  on_rest (fun s => ((), (b, s.2))).

(** The callback given to [webpack(config).watch]. *)
Definition watch_callback (a : CallbackArgs) : Js Watching () :=
  on_console (logWebpackData a.1 a.2) ;;
  let* initialRun := get_initialRun in
  if initialRun
  then set_initialRun false ;;
       on_rest (fun s => ((), (s.1, resolve () s.2)))
  else ret ().

(** The engine calls the callback once per build pass; what a callback
    throws goes back to the engine, and the state it left stays. *)
Definition passes {S} (cb : CallbackArgs -> Js S ()) (deliveries : list CallbackArgs)
    (s : S) : S :=
  foldl (fun s a => (cb a s).2) s deliveries.

End Engine.

Arguments EngineCall : clear implicits.
Arguments Line : clear implicits.
Arguments Console : clear implicits.
Arguments CallbackArgs : clear implicits.
Arguments Compiling : clear implicits.
Arguments Watching : clear implicits.

End Compiler.

(** ** StaticFileOps: [copy] and [move] *)

Module Static.
Import Runner Batch.

(** An element of [items]. *)
Record FileOp := mkFileOp {
  target : string;
  dest : string;
}.

(** [{ method: 'exec' }] *)
Definition exec_params : Params := mkParams (Some "exec") None None.

(** The two template literals. *)
Definition cp_command (item : FileOp) : string :=
  "cp -a " +:+ target item +:+ " " +:+ dest item.

Definition mv_command (item : FileOp) : string :=
  "mv " +:+ target item +:+ " " +:+ dest item.

(** [Promise.all(items.map(item => this.run(..., { method: 'exec' })))] *)
Definition copy (penv : Env) (items : list FileOp) : Joined :=
  promise_all ((fun item => run penv (cp_command item) (Some exec_params)) <$> items).

Definition move (penv : Env) (items : list FileOp) : Joined :=
  promise_all ((fun item => run penv (mv_command item) (Some exec_params)) <$> items).

End Static.

(** ** What a session of build passes leaves on the console *)

Module Passes.
Import Compiler.

Section Deliveries.

Context {ErrorInfo Stats : Type}.
Variable toString : Stats -> StatsOptions -> string.

(** The lines one call of a callback adds: the error if there is one,
    then the rendering of the stats if there are stats. *)
Definition delivery_lines (a : CallbackArgs ErrorInfo Stats) : Console ErrorInfo :=
  (error_lines a.1 ++
   match a.2 with
   | Some st => [LogLine (toString st report_options)]
   | None => []
   end)%list.

Definition has_stats (a : CallbackArgs ErrorInfo Stats) : bool :=
  match a.2 with
  | Some _ => true
  | None => false
  end.

End Deliveries.

End Passes.

(** ** The whole of a call: what the executor of a promise may throw *)

Module Executor.
Import Runner.

(** The outside, asked at a call that the code makes inside the executor
    of a promise: [None] when the call returns (a handle, a compiler),
    [Some e] when it throws [e]. *)
Definition Answers (Q : Type) : Type := Q -> option JsVal.

(** [new Promise(executor)] when the executor has come back: rejected
    with what the executor threw, as created when it threw nothing. *)
Definition after_executor {A} (thrown : option JsVal) : Promise A :=
  match thrown with
  | Some e => reject e new_promise
  | None => new_promise
  end.

(** A call of [run]: the [child_process] call it made, the event
    [.on] registered [resolve] for, if the call came back with a handle
    to register it on, the promise returned, and the errors the emitter
    has thrown as uncaught because nothing listens to [error]. *)
Record Call := mkCall {
  asked : Launch;
  listener : option string;
  promise : Promise JsVal;
  uncaught : list JsVal;
}.

(** [run(script, params)] with its executor: when the [child_process]
    call throws, [.on] is not reached and the promise is rejected. *)
Definition run (os : Answers Launch) (penv : Env) (script : string)
    (params : option Params) : Call :=
  let params := obj_or params no_params in
  let call := launch penv script params in
  mkCall call
    (match os call with
     | None => Some (done_event params)
     | Some _ => None
     end)
    (after_executor (os call))
    [].

(** An event of the child.  Without a handle there is no child and
    nothing happens.  The awaited event calls [resolve]; an [error]
    event that is not the awaited one has no listener, and the emitter
    throws its argument. *)
Definition deliver (ev : Event) (c : Call) : Call :=
  match listener c with
  | None => c
  | Some name =>
      if decide (ev.1 = name)
      then mkCall (asked c) (listener c) (resolve ev.2 (promise c)) (uncaught c)
      else if decide (ev.1 = "error")
      then mkCall (asked c) (listener c) (promise c) (uncaught c ++ [ev.2])
      else c
  end.

Definition deliver_all (evs : list Event) (c : Call) : Call :=
  foldl (fun c ev => deliver ev c) c evs.

(** [this.run(...args)] on a normalised element of [scripts]. *)
Definition run_item (os : Answers Launch) (penv : Env) (item : Batch.Item) : Call :=
  let '(s, p) := Batch.normalize item in run os penv s p.

(** The reason of the first promise, in the order of the array, that is
    rejected. *)
Fixpoint first_rejected (cs : list Call) : option JsVal :=
  match cs with
  | [] => None
  | c :: cs =>
      match settled (promise c) with
      | Rejected e => Some e
      | _ => first_rejected cs
      end
  end.

(** [Promise.all] over the promises of the calls, once the reactions it
    attached to the promises that were settled already have run: a
    promise rejected from the start rejects the aggregate, the first in
    the order of the array winning. *)
Record Joined := mkJoined {
  calls : list Call;
  slots : list JsVal;
  unfilled : nat;
  aggregate : Promise (list JsVal);
}.

Definition promise_all (cs : list Call) : Joined :=
  mkJoined cs (replicate (length cs) JUndefined) (length cs)
    (match first_rejected cs with
     | Some e => reject e new_promise
     | None =>
         match cs with
         | [] => resolve [] new_promise
         | _ => new_promise
         end
     end).

Definition runAsync (os : Answers Launch) (penv : Env) (scripts : list Batch.Item) : Joined :=
  promise_all (run_item os penv <$> scripts).

(** An event of the [i]-th child and the reaction of [Promise.all] to
    what it does to that child's promise. *)
Definition deliver_to (iev : nat * Event) (j : Joined) : Joined :=
  let '(i, ev) := iev in
  match calls j !! i with
  | None => j
  | Some c =>
      let c' := deliver ev c in
      let cs := <[i := c']> (calls j) in
      match settled (promise c), settled (promise c') with
      | Pending, Fulfilled v =>
          let vs := <[i := v]> (slots j) in
          let n := pred (unfilled j) in
          mkJoined cs vs n
            (match n with
             | O => resolve vs (aggregate j)
             | S _ => aggregate j
             end)
      | Pending, Rejected e =>
          mkJoined cs (slots j) (unfilled j) (reject e (aggregate j))
      | _, _ => mkJoined cs (slots j) (unfilled j) (aggregate j)
      end
  end.

Definition deliver_all_to (trace : list (nat * Event)) (j : Joined) : Joined :=
  foldl (fun j iev => deliver_to iev j) j trace.

(** A call that came back with a handle, and a batch of such calls, as
    the modules above have them. *)
Definition started (c : Call) : Running :=
  mkRunning (asked c) (default "" (listener c)) (promise c).

Definition started_batch (j : Joined) : Batch.Joined :=
  Batch.mkJoined (started <$> calls j) (slots j) (unfilled j) (aggregate j).

Section Engine.
Import Compiler.

Context {Config ErrorInfo Stats : Type}.

(** A call of [compile] or [compileAndWatch]: the engine call made in
    the executor, what that call threw, and the state the callback runs
    on. *)
Record Build (S : Type) := mkBuild {
  engine_call : EngineCall Config;
  refused : option JsVal;
  state : S;
}.
Arguments mkBuild {S} _ _ _.
Arguments engine_call {S} _.
Arguments refused {S} _.
Arguments state {S} _.

(** [compile(config)], called with the console as it is. *)
Definition compile (engine : Answers (EngineCall Config)) (config : Config)
    (out : Console ErrorInfo) : Build (Compiling ErrorInfo) :=
  let call := WebpackRun config in
  mkBuild call (engine call) (out, after_executor (engine call)).

(** [compileAndWatch(config)]: [initialRun] starts as [true]. *)
Definition compileAndWatch (engine : Answers (EngineCall Config)) (config : Config)
    (out : Console ErrorInfo) : Build (Watching ErrorInfo) :=
  let call := WebpackWatch config in
  mkBuild call (engine call) (out, (true, after_executor (engine call))).


End Engine.

Arguments Build : clear implicits.
Arguments mkBuild {Config S} _ _ _.
Arguments engine_call {Config S} _.
Arguments refused {Config S} _.
Arguments state {Config S} _.

End Executor.

(** * Properties *)

Import Runner Batch Bundles Compiler.

(** ** Promises settle once *)

Lemma resolve_settled {A} (v : A) (p : Promise A) :
  settled p ≠ Pending → settled (resolve v p) = settled p.
Proof. unfold resolve; simpl. by destruct (settled p). Qed.

Lemma resolve_pending {A} (v : A) (p : Promise A) :
  settled p = Pending → settled (resolve v p) = Fulfilled v.
Proof. unfold resolve; simpl. by intros ->. Qed.

Lemma resolve_not_rejected {A} (v : A) (p : Promise A) :
  is_rejected p = false → is_rejected (resolve v p) = false.
Proof. unfold is_rejected, resolve; simpl. by destruct (settled p). Qed.

(** ** The environment of a child *)

Lemma launch_env_child penv script params :
  launch_env (launch penv script params) = child_env penv.
Proof.
  unfold launch.
  destruct (method params) as [m|]; [|done].
  repeat (case_match; try done).
Qed.

Lemma run_env penv script params :
  launch_env (launched (run penv script params)) = child_env penv.
Proof. unfold run. cbn [launched]. apply launch_env_child. Qed.

(** C8, as the code has it: under each of the three methods the child
    gets the ambient environment with NODE_ENV set to its inherited
    value when that value is a non-empty string, and to "development"
    when NODE_ENV is unset or set to the empty string; every other
    variable is passed on as it is, and none is added. *)
Theorem run_child_environment (penv : Env) (script : string) (params : option Params) :
  let env := launch_env (launched (run penv script params)) in
  env !! "NODE_ENV" =
    Some (match penv !! "NODE_ENV" with
          | Some v => if decide (v = "") then "development" else v
          | None => "development"
          end)
  ∧ ∀ name, name ≠ "NODE_ENV" → env !! name = penv !! name.
Proof.
  cbv zeta. rewrite run_env. unfold child_env, node_env, str_or. split.
  - by rewrite lookup_insert_eq.
  - intros name Hname. by rewrite lookup_insert_ne.
Qed.

(** C8 as it is written fails: with NODE_ENV set to the empty string in
    the ambient environment, the child does not get the inherited value
    but "development". *)
Lemma run_child_environment_empty_mode :
  let penv : Env := {["NODE_ENV" := ""; "HOME" := "/root"]} in
  penv !! "NODE_ENV" = Some ""
  ∧ launch_env (launched (run penv "build/app.js" None)) !! "NODE_ENV"
    ≠ Some (default "development" (penv !! "NODE_ENV")).
Proof.
  cbv zeta. split; [done|].
  rewrite run_env. unfold child_env.
  rewrite lookup_insert_eq. unfold node_env.
  rewrite lookup_insert_eq. simpl. discriminate.
Qed.

(** ** Bundle discovery *)

(** C4: with [bundles] given, [hot: false] (or no [hot]) maps each name
    [n], in order, to [{script: 'build/<n>.js', params: {method:
    'fork'}}]; [hot: true] maps it to [{script: 'scripts/nodemon',
    params: {args: ['build/<n>.js']}}], which [run] starts with
    [spawn], the default method, on inherited stdio. *)
Theorem getServers_maps_each_bundle (names : list string) (w : Fs) :
  (getServers (Some (mkServerParams (Some names) (Some false))) w).1 =
    Normal ((λ n, Pair ("build/" +:+ n +:+ ".js")
                    (Some (mkParams (Some "fork") None None))) <$> names)
  ∧ (getServers (Some (mkServerParams (Some names) (Some true))) w).1 =
    Normal ((λ n, Pair "scripts/nodemon"
                    (Some (mkParams None (Some ["build/" +:+ n +:+ ".js"]) None))) <$> names)
  ∧ ∀ penv n,
      launched (run_item penv (hot_server n)) =
        Spawn "scripts/nodemon" ["build/" +:+ n +:+ ".js"] "inherit" (child_env penv)
      ∧ launched (run_item penv (cold_server n)) =
        Fork ("build/" +:+ n +:+ ".js") [] false (child_env penv).
Proof. done. Qed.

(** C10: with [bundles] given, empty or not, no directory is listed, the
    call cannot fail, and the result is the same under any two file
    systems. *)
Theorem getServers_given_bundles_ignores_fs
    (names : list string) (h : option bool) (w1 w2 : Fs) :
  let call := getServers (Some (mkServerParams (Some names) h)) in
  (call w1).1 = (call w2).1
  ∧ (∃ items, (call w1).1 = Normal items)
  ∧ (call w1).2 = w1
  ∧ listed (call w1).2 = listed w1.
Proof.
  simpl. unfold getServers, bind, ret; simpl.
  destruct (truthy h); simpl; eauto.
Qed.

(** ** Normalisation of the elements of a batch *)

(** C9: a bare string [s], the object [{script: s}] and the object
    [{script: s, params: {}}] start the same child, listen for the same
    event, and, put at the same place of a batch, give the same batch
    under every trace of events. *)
Theorem runAsync_bare_string_is_default_pair
    (penv : Env) (s : string) (before after : list Item)
    (trace : list (nat * Event)) :
  run_item penv (Bare s) = run_item penv (Pair s None)
  ∧ run_item penv (Bare s) = run_item penv (Pair s (Some no_params))
  ∧ run_item penv (Bare s) = run penv s (Some no_params)
  ∧ deliver_all_to trace (runAsync penv (before ++ Bare s :: after)) =
    deliver_all_to trace (runAsync penv (before ++ Pair s None :: after))
  ∧ deliver_all_to trace (runAsync penv (before ++ Bare s :: after)) =
    deliver_all_to trace (runAsync penv (before ++ Pair s (Some no_params) :: after)).
Proof.
  assert (H1 : run_item penv (Bare s) = run_item penv (Pair s None)) by done.
  assert (H2 : run_item penv (Bare s) = run_item penv (Pair s (Some no_params))) by done.
  repeat split; try done; unfold runAsync; rewrite !fmap_app, !fmap_cons.
  - by rewrite H1.
  - by rewrite H2.
Qed.

(** ** One run and the events of its child *)

Lemma deliver_listens ev r : listens (deliver ev r) = listens r.
Proof. unfold deliver. by case_decide. Qed.

Lemma deliver_launched ev r : launched (deliver ev r) = launched r.
Proof. unfold deliver. by case_decide. Qed.

Lemma deliver_all_listens evs r : listens (deliver_all evs r) = listens r.
Proof.
  revert r. induction evs as [|ev evs IH]; intros r; [done|].
  unfold deliver_all in *. simpl. by rewrite IH, deliver_listens.
Qed.

Lemma deliver_all_launched evs r : launched (deliver_all evs r) = launched r.
Proof.
  revert r. induction evs as [|ev evs IH]; intros r; [done|].
  unfold deliver_all in *. simpl. by rewrite IH, deliver_launched.
Qed.

Lemma deliver_all_app evs more r :
  deliver_all (evs ++ more) r = deliver_all more (deliver_all evs r).
Proof. unfold deliver_all. apply foldl_app. Qed.

(** Once settled, the promise of a run keeps its state under every
    further event. *)
Lemma deliver_settled ev r :
  settled (future r) ≠ Pending →
  settled (future (deliver ev r)) = settled (future r).
Proof.
  intros H. unfold deliver. case_decide; [|done].
  simpl. by destruct (settled (future r)).
Qed.

(** The state of the promise after a trace: it is the state it had if
    that was settled, and else the first firing of the awaited event
    decides. *)
Lemma deliver_all_settled evs r :
  settled (future (deliver_all evs r)) =
    match settled (future r) with
    | Pending =>
        match first_firing (listens r) evs with
        | Some v => Fulfilled v
        | None => Pending
        end
    | s => s
    end.
Proof.
  revert r. induction evs as [|ev evs IH]; intros r.
  - simpl. by destruct (settled (future r)).
  - change (deliver_all (ev :: evs) r) with (deliver_all evs (deliver ev r)).
    rewrite IH, deliver_listens. simpl.
    unfold deliver. case_decide as Hev.
    + simpl. by destruct (settled (future r)).
    + done.
Qed.

Lemma run_listens penv script params :
  listens (run penv script params) = done_event (obj_or params no_params).
Proof. done. Qed.

Lemma run_settled penv script params evs :
  settled (future (deliver_all evs (run penv script params))) =
    match first_firing (done_event (obj_or params no_params)) evs with
    | Some v => Fulfilled v
    | None => Pending
    end.
Proof. by rewrite deliver_all_settled. Qed.

(** ** Diagnostics and the two compile modes *)

Section CompilerFacts.

Context {Config ErrorInfo Stats : Type}.
Variable toString : Stats → StatsOptions → string.

Implicit Types (config : Config) (err : option ErrorInfo) (st : Stats) (out : Console ErrorInfo).

Lemma logWebpackData_with_stats err st out :
  logWebpackData toString err (Some st) out =
    (Normal (), out ++ error_lines err ++ [LogLine (toString st report_options)])%list.
Proof.
  unfold logWebpackData, bind, this_error, this_log, ret; simpl.
  destruct err; simpl; [by rewrite <- app_assoc | done].
Qed.

Lemma logWebpackData_without_stats err out :
  logWebpackData toString err None out =
    (Throw (JError "TypeError: Cannot read property 'toString' of undefined"),
     (out ++ error_lines err)%list).
Proof.
  unfold logWebpackData, bind, this_error, this_log, ret; simpl.
  destruct err; simpl; [done | by rewrite app_nil_r].
Qed.

(** C7, as the code has it: whatever the result, an error that is
    present goes to the error channel first; with a result present its
    rendering, under the fixed options, goes to the log channel and the
    reporter returns to its caller without raising. *)
Theorem logWebpackData_reports err (result : option Stats) st out :
  (∃ rest, (logWebpackData toString err result out).2
           = (out ++ error_lines err ++ rest)%list)
  ∧ logWebpackData toString err (Some st) out =
    (Normal (), out ++ error_lines err ++ [LogLine (toString st report_options)])%list.
Proof.
  split; [|apply logWebpackData_with_stats].
  destruct result as [st'|].
  - rewrite logWebpackData_with_stats. simpl. eauto.
  - rewrite logWebpackData_without_stats. simpl.
    exists []. by rewrite app_nil_r.
Qed.


(** With the stats missing the reporter throws, and the callback of
    [compile] is left before it calls [resolve]. *)
Lemma compile_callback_without_stats err out p :
  compile_callback toString (err, None) (out, p) =
    (Throw (JError "TypeError: Cannot read property 'toString' of undefined"),
     (out ++ error_lines err, p))%list.
Proof.
  unfold compile_callback, bind, on_console, on_rest. cbn [fst snd].
  by rewrite logWebpackData_without_stats.
Qed.

Lemma watch_callback_with_stats err st out (initialRun : bool) p :
  watch_callback toString (err, Some st) (out, (initialRun, p)) =
    (Normal (),
     (out ++ error_lines err ++ [LogLine (toString st report_options)],
      (false, if initialRun then resolve () p else p)))%list.
Proof.
  unfold watch_callback, bind, on_console, get_initialRun, set_initialRun,
    on_rest, ret.
  cbn [fst snd]. rewrite logWebpackData_with_stats.
  by destruct initialRun.
Qed.

(** With the stats missing the reporter throws, and the callback of
    [compileAndWatch] is left with the flag and the promise as they
    were. *)
Lemma watch_callback_without_stats err out (initialRun : bool) p :
  watch_callback toString (err, None) (out, (initialRun, p)) =
    (Throw (JError "TypeError: Cannot read property 'toString' of undefined"),
     (out ++ error_lines err, (initialRun, p)))%list.
Proof.
  unfold watch_callback, bind, on_console, on_rest. cbn [fst snd].
  by rewrite logWebpackData_without_stats.
Qed.

Lemma passes_cons {S} (cb : CallbackArgs ErrorInfo Stats → Js S ()) a deliveries s :
  passes cb (a :: deliveries) s = passes cb deliveries (cb a s).2.
Proof. done. Qed.

End CompilerFacts.

(** C7 as it is written fails: called without a result the reporter
    raises a TypeError into its caller, after it has emitted the error
    if there is one. *)
Lemma logWebpackData_absent_result_throws :
  let toString (st : string) (_ : StatsOptions) := st in
  logWebpackData (ErrorInfo := string) toString None None [] =
    (Throw (JError "TypeError: Cannot read property 'toString' of undefined"), [])
  ∧ logWebpackData toString (Some "ModuleNotFoundError") None [] =
    (Throw (JError "TypeError: Cannot read property 'toString' of undefined"),
     [ErrorLine "ModuleNotFoundError"]).
Proof. split; reflexivity. Qed.

(** ** The batch: [Promise.all] over the runs *)

Section BatchFacts.

Implicit Types (j : Joined) (r : Running) (rs : list Running)
  (trace : list (nat * Event)) (ev : Event) (i : nat).

Lemma deliver_to_promises i ev j :
  promises (deliver_to (i, ev) j) =
    match promises j !! i with
    | Some r => <[i := deliver ev r]> (promises j)
    | None => promises j
    end.
Proof.
  unfold deliver_to. destruct (promises j !! i) as [r|]; [|done].
  destruct (settled (future r)); [|done..].
  by destruct (settled (future (deliver ev r))).
Qed.

Lemma deliver_to_lookup i k ev j :
  promises (deliver_to (k, ev) j) !! i =
    (if decide (k = i) then deliver ev else id) <$> promises j !! i.
Proof.
  rewrite deliver_to_promises.
  destruct (promises j !! k) as [r|] eqn:Hk.
  - case_decide as Hki.
    + subst k. rewrite list_lookup_insert_eq by by eapply lookup_lt_Some.
      by rewrite Hk.
    + rewrite list_lookup_insert_ne by done. by destruct (promises j !! i).
  - case_decide as Hki.
    + subst k. by rewrite Hk.
    + by destruct (promises j !! i).
Qed.

Lemma deliver_all_to_cons iev trace j :
  deliver_all_to (iev :: trace) j = deliver_all_to trace (deliver_to iev j).
Proof. done. Qed.

(** Each child sees its own events only, in the order of the trace. *)
Lemma deliver_all_to_lookup i trace j :
  promises (deliver_all_to trace j) !! i =
    deliver_all (events_of i trace) <$> promises j !! i.
Proof.
  revert j. induction trace as [|[k ev] trace IH]; intros j.
  - simpl. by destruct (promises j !! i).
  - rewrite deliver_all_to_cons, IH, deliver_to_lookup.
    unfold events_of. cbn [omap list_omap fst snd].
    case_decide as Hki.
    + by destruct (promises j !! i).
    + by destruct (promises j !! i).
Qed.

Lemma deliver_all_to_length trace j :
  length (promises (deliver_all_to trace j)) = length (promises j).
Proof.
  revert j. induction trace as [|[k ev] trace IH]; intros j; [done|].
  rewrite deliver_all_to_cons, IH, deliver_to_promises.
  destruct (promises j !! k); [apply length_insert | done].
Qed.

Lemma pending_count_cons r rs :
  pending_count (r :: rs) =
    (if is_pending (future r) then 1 else 0) + pending_count rs.
Proof. done. Qed.

Lemma pending_count_insert rs i r r' :
  rs !! i = Some r →
  pending_count (<[i := r']> rs) + (if is_pending (future r) then 1 else 0) =
  pending_count rs + (if is_pending (future r') then 1 else 0).
Proof.
  revert i. induction rs as [|x rs IH]; intros [|i] Hi; simplify_eq/=.
  - rewrite !pending_count_cons. lia.
  - rewrite !pending_count_cons. specialize (IH i Hi). lia.
Qed.

Lemma pending_count_zero rs i r :
  pending_count rs = 0 → rs !! i = Some r → is_pending (future r) = false.
Proof.
  revert i. induction rs as [|x rs IH]; intros [|i] Hz Hi;
    rewrite ?pending_count_cons in Hz; simplify_eq/=.
  - destruct (is_pending (future r)); [lia | done].
  - apply (IH i); [lia | done].
Qed.

Lemma pending_count_all_pending rs :
  (∀ i r, rs !! i = Some r → settled (future r) = Pending) →
  pending_count rs = length rs.
Proof.
  induction rs as [|x rs IH]; intros H; [done|].
  rewrite pending_count_cons, IH by (intros i r Hi; apply (H (S i) r Hi)).
  unfold is_pending. by rewrite (H 0 x eq_refl).
Qed.

Lemma pending_count_none_pending rs :
  (∀ i r, rs !! i = Some r → is_pending (future r) = false) →
  pending_count rs = 0.
Proof.
  induction rs as [|x rs IH]; intros H; [done|].
  rewrite pending_count_cons, IH by (intros i r Hi; apply (H (S i) r Hi)).
  by rewrite (H 0 x eq_refl).
Qed.

(** An event either leaves the state of a promise alone or takes it from
    pending to fulfilled. *)
Lemma deliver_cases ev r :
  settled (future (deliver ev r)) = settled (future r)
  ∨ (settled (future r) = Pending ∧ settled (future (deliver ev r)) = Fulfilled ev.2).
Proof.
  unfold deliver. case_decide; [|by left].
  simpl. destruct (settled (future r)); auto.
Qed.

Lemma promise_all_ok rs :
  (∀ i r, rs !! i = Some r → settled (future r) = Pending) →
  joined_ok (promise_all rs).
Proof.
  intros H. unfold joined_ok, promise_all. cbn [values promises remaining all].
  split; [by rewrite length_replicate|].
  split; [by rewrite pending_count_all_pending|].
  split.
  - intros i r Hi. unfold slot_ok. by rewrite (H i r Hi).
  - by destruct rs.
Qed.

Lemma deliver_to_ok iev j : joined_ok j → joined_ok (deliver_to iev j).
Proof.
  destruct iev as [i ev]. intros (Hlen & Hrem & Hslot & Hall).
  unfold deliver_to. destruct (promises j !! i) as [r|] eqn:Hi; [|done].
  pose proof (pending_count_insert _ _ _ (deliver ev r) Hi) as Hcount.
  pose proof (Hslot i r Hi) as Hr. unfold slot_ok in Hr.
  assert (Hsame : settled (future (deliver ev r)) = settled (future r) →
    joined_ok (mkJoined (<[i := deliver ev r]> (promises j)) (values j)
                 (remaining j) (all j))).
  { intros E. unfold joined_ok. cbn [values promises remaining all].
    split; [by rewrite length_insert|]. split.
    - unfold is_pending in Hcount. rewrite E in Hcount. lia.
    - split; [|done]. intros k r' Hk.
      destruct (decide (i = k)) as [->|Hne].
      + rewrite list_lookup_insert_eq in Hk by by eapply lookup_lt_Some.
        simplify_eq. unfold slot_ok. by rewrite E.
      + rewrite list_lookup_insert_ne in Hk by done. by apply Hslot. }
  destruct (deliver_cases ev r) as [E|[Ep Ef]].
  - rewrite E. destruct (settled (future r)) eqn:Es; by apply Hsame.
  - rewrite Ep, Ef. unfold is_pending in Hcount. rewrite Ep, Ef in Hcount.
    unfold joined_ok. cbn [values promises remaining all].
    rewrite !length_insert.
    split; [done|]. split; [lia|]. split.
    + intros k r' Hk. destruct (decide (i = k)) as [->|Hne].
      * rewrite list_lookup_insert_eq in Hk by by eapply lookup_lt_Some.
        simplify_eq. unfold slot_ok. rewrite Ef.
        apply list_lookup_insert_eq. rewrite Hlen. by eapply lookup_lt_Some.
      * rewrite list_lookup_insert_ne in Hk by done.
        specialize (Hslot k r' Hk). unfold slot_ok in *.
        destruct (settled (future r')); [done| |done].
        by rewrite list_lookup_insert_ne.
    + destruct (remaining j) as [|n] eqn:En; [lia|].
      simpl. destruct n; [|done].
      by apply resolve_pending.
Qed.

Lemma deliver_all_to_ok trace j : joined_ok j → joined_ok (deliver_all_to trace j).
Proof.
  revert j. induction trace as [|iev trace IH]; intros j Hj; [done|].
  rewrite deliver_all_to_cons. by apply IH, deliver_to_ok.
Qed.

Lemma runAsync_ok penv scripts trace :
  joined_ok (deliver_all_to trace (runAsync penv scripts)).
Proof.
  apply deliver_all_to_ok, promise_all_ok.
  intros i r. rewrite list_lookup_fmap.
  destruct (scripts !! i) as [[s|s p]|]; by intros [= <-].
Qed.

Lemma runAsync_child penv scripts trace i item :
  scripts !! i = Some item →
  promises (deliver_all_to trace (runAsync penv scripts)) !! i =
    Some (deliver_all (events_of i trace) (run_item penv item)).
Proof.
  intros Hi. rewrite deliver_all_to_lookup. unfold runAsync, promise_all.
  cbn [promises]. by rewrite list_lookup_fmap, Hi.
Qed.

(** A fulfilled aggregate holds, slot by slot, the values of its
    children. *)
Lemma runAsync_fulfilled penv scripts trace vs :
  settled (all (deliver_all_to trace (runAsync penv scripts))) = Fulfilled vs →
  length vs = length scripts
  ∧ ∀ i item, scripts !! i = Some item →
      ∃ v, vs !! i = Some v
           ∧ settled (future (deliver_all (events_of i trace) (run_item penv item)))
             = Fulfilled v.
Proof.
  intros Hvs.
  destruct (runAsync_ok penv scripts trace) as (Hlen & Hrem & Hslot & Hall).
  rewrite Hvs in Hall.
  destruct (remaining _) eqn:En; [|done]. injection Hall as ->.
  split.
  - rewrite Hlen, deliver_all_to_length. unfold runAsync, promise_all.
    cbn [promises]. by rewrite length_fmap.
  - intros i item Hi.
    pose proof (runAsync_child penv scripts trace i item Hi) as Hc.
    pose proof (Hslot _ _ Hc) as Hs.
    pose proof (pending_count_zero _ _ _ (eq_sym Hrem) Hc) as Hp.
    unfold slot_ok in Hs. unfold is_pending in Hp.
    destruct (settled (future _)) as [|v|e]; [done| |done].
    by exists v.
Qed.

(** The aggregate resolves as soon as every child has seen its awaited
    event. *)
Lemma runAsync_resolves penv scripts trace :
  (∀ i item, scripts !! i = Some item →
     is_Some (first_firing (listens (run_item penv item)) (events_of i trace))) →
  ∃ vs, settled (all (deliver_all_to trace (runAsync penv scripts))) = Fulfilled vs.
Proof.
  intros Hfired.
  destruct (runAsync_ok penv scripts trace) as (Hlen & Hrem & Hslot & Hall).
  assert (Hz : pending_count
                 (promises (deliver_all_to trace (runAsync penv scripts))) = 0).
  { apply pending_count_none_pending. intros i r Hi.
    assert (is_Some (scripts !! i)) as [item Hitem].
    { apply lookup_lt_is_Some. apply lookup_lt_Some in Hi.
      rewrite deliver_all_to_length in Hi. unfold runAsync, promise_all in Hi.
      cbn [promises] in Hi. by rewrite length_fmap in Hi. }
    rewrite (runAsync_child penv scripts trace i item Hitem) in Hi.
    injection Hi as <-.
    unfold is_pending. rewrite deliver_all_settled.
    destruct (Hfired i item Hitem) as [v ->].
    by destruct (settled (future (run_item penv item))). }
  rewrite Hz in Hrem. rewrite Hrem in Hall. eauto.
Qed.

End BatchFacts.

Lemma run_child_environment_witness :
  let penv : Env := {["NODE_ENV" := "production"; "HOME" := "/root"]} in
  let env := launch_env (launched (run penv "build/app.js" None)) in
  "HOME" ≠ "NODE_ENV"
  ∧ env !! "NODE_ENV" = Some "production"
  ∧ env !! "HOME" = penv !! "HOME".
Proof.
  cbv zeta.
  destruct (run_child_environment
              {["NODE_ENV" := "production"; "HOME" := "/root"]}
              "build/app.js" None) as [H1 H2].
  split; [discriminate|]. split.
  - rewrite H1. reflexivity.
  - apply H2. discriminate.
Defined.

(** * Further properties of the code *)

(** ** [run]: the awaited event, the method and the environment *)

Lemma done_event_not_empty params : done_event params ≠ "".
Proof.
  unfold done_event, str_or.
  destruct (resolveOn params) as [s|]; [|done].
  by case_decide.
Qed.

(** X1: [run] never awaits the event with the empty name: asked to resolve
    on the empty string it awaits [exit], so an event whose name is empty
    leaves the promise pending, while [exit] fulfils it. *)
Theorem run_never_awaits_empty_event
    (penv : Env) (script : string) (params : option Params) (m : option string)
    (a : option (list string)) (v : JsVal) :
  listens (run penv script params) ≠ ""
  ∧ settled (future (deliver ("", v) (run penv script params))) = Pending
  ∧ listens (run penv script (Some (mkParams m a (Some "")))) = "exit"
  ∧ settled (future (deliver ("exit", v)
                       (run penv script (Some (mkParams m a (Some ""))))))
    = Fulfilled v.
Proof.
  split; [apply done_event_not_empty|]. split; [|done].
  unfold deliver. rewrite decide_False; [done|].
  cbn [fst]. intros E. by apply (done_event_not_empty (obj_or params no_params)).
Qed.

Lemma launch_default penv script params :
  method params ≠ Some "fork" → method params ≠ Some "exec" →
  launch penv script params =
    Spawn script (obj_or (args params) []) "inherit" (child_env penv).
Proof.
  intros Hf He. unfold launch.
  destruct (method params) as [m|]; [|done].
  repeat (case_match; try done).
Qed.

(** X2: a method that is neither ['fork'] nor ['exec'], a missing one
    included, starts the child with [spawn] on inherited stdio, with the
    given arguments or none; the names are compared as they are, so
    ['Fork'] is such a method. *)
Theorem run_other_method_spawns
    (penv : Env) (script : string) (params : Params) :
  method params ≠ Some "fork" → method params ≠ Some "exec" →
  launched (run penv script (Some params)) =
    Spawn script (default [] (args params)) "inherit" (child_env penv).
Proof.
  intros Hf He. unfold run. cbn [launched obj_or].
  rewrite launch_default by done. by destruct (args params).
Qed.

Lemma node_env_not_empty penv : node_env penv ≠ "".
Proof.
  unfold node_env, str_or.
  destruct (penv !! "NODE_ENV") as [s|]; [|done].
  by case_decide.
Qed.

Lemma node_env_child penv : node_env (child_env penv) = node_env penv.
Proof.
  unfold child_env. unfold node_env at 1.
  rewrite lookup_insert_eq. unfold str_or.
  rewrite decide_False; [done|apply node_env_not_empty].
Qed.

Lemma child_env_idempotent penv : child_env (child_env penv) = child_env penv.
Proof.
  unfold child_env at 1. rewrite node_env_child.
  unfold child_env. apply insert_insert_eq.
Qed.

(** X3: whatever the ambient environment, every child finds NODE_ENV set
    to a non-empty string, and its environment has the names of the
    ambient one and NODE_ENV, no other. *)
Theorem run_child_has_mode
    (penv : Env) (script : string) (params : option Params) :
  let env := launch_env (launched (run penv script params)) in
  (∃ mode, env !! "NODE_ENV" = Some mode ∧ mode ≠ "")
  ∧ dom env = {["NODE_ENV"]} ∪ dom penv.
Proof.
  cbv zeta. rewrite run_env. unfold child_env. split.
  - exists (node_env penv). split; [apply lookup_insert_eq | apply node_env_not_empty].
  - apply dom_insert_L.
Qed.

(** X4: a child that calls [run] itself hands its own children the
    environment it was given: computing the child environment from a
    child environment changes nothing. *)
Theorem run_environment_is_stable
    (penv : Env) (script script' : string) (params params' : option Params) :
  let env := launch_env (launched (run penv script params)) in
  launch_env (launched (run env script' params')) = env.
Proof. cbv zeta. rewrite !run_env. apply child_env_idempotent. Qed.

Lemma deliver_all_resolve_calls evs r :
  resolve_calls (future (deliver_all evs r)) =
    resolve_calls (future r) + length (filter (λ ev : Event, ev.1 = listens r) evs).
Proof.
  revert r. induction evs as [|ev evs IH]; intros r.
  - simpl. lia.
  - change (deliver_all (ev :: evs) r) with (deliver_all evs (deliver ev r)).
    rewrite IH, deliver_listens, filter_cons.
    unfold deliver. case_decide; simpl; lia.
Qed.

(** X5: the listener of [run] stays registered: the resolving function is
    called once for every firing of the awaited event, not only for the
    first, whose payload is the one the promise keeps. *)
Theorem run_listener_stays_registered
    (penv : Env) (script : string) (params : option Params) (evs : list Event) :
  let r := deliver_all evs (run penv script params) in
  resolve_calls (future r) =
    length (filter (λ ev : Event, ev.1 = listens (run penv script params)) evs)
  ∧ settled (future r) =
    match first_firing (listens (run penv script params)) evs with
    | Some v => Fulfilled v
    | None => Pending
    end.
Proof.
  cbv zeta. split.
  - by rewrite deliver_all_resolve_calls.
  - apply run_settled.
Qed.

(** ** [runAsync]: when the aggregate settles *)

Lemma run_item_settled penv item evs :
  settled (future (deliver_all evs (run_item penv item))) =
    match first_firing (listens (run_item penv item)) evs with
    | Some v => Fulfilled v
    | None => Pending
    end.
Proof. rewrite deliver_all_settled. by destruct item. Qed.

Lemma runAsync_pending_or_fulfilled penv scripts trace :
  settled (all (deliver_all_to trace (runAsync penv scripts))) = Pending
  ∨ ∃ vs, settled (all (deliver_all_to trace (runAsync penv scripts))) = Fulfilled vs.
Proof.
  destruct (runAsync_ok penv scripts trace) as (_ & _ & _ & Hall).
  rewrite Hall. destruct (remaining _); eauto.
Qed.

Lemma runAsync_fulfilled_fired penv scripts trace vs :
  settled (all (deliver_all_to trace (runAsync penv scripts))) = Fulfilled vs →
  ∀ i item, scripts !! i = Some item →
    is_Some (first_firing (listens (run_item penv item)) (events_of i trace)).
Proof.
  intros Hvs i item Hi.
  destruct (runAsync_fulfilled penv scripts trace vs Hvs) as [_ Hnth].
  destruct (Hnth i item Hi) as (v & _ & Hv).
  rewrite run_item_settled in Hv.
  destruct (first_firing _ _); [eauto | done].
Qed.

Lemma first_firing_app name evs more :
  first_firing name (evs ++ more) =
    match first_firing name evs with
    | Some v => Some v
    | None => first_firing name more
    end.
Proof.
  induction evs as [|ev evs IH]; [done|].
  simpl. by case_decide.
Qed.

Lemma events_of_app i trace more :
  events_of i (trace ++ more) = (events_of i trace ++ events_of i more)%list.
Proof. apply omap_app. Qed.

(** X8: once the aggregate of [runAsync] is fulfilled, whatever the
    children emit afterwards leaves it fulfilled with the same array. *)
Theorem runAsync_result_is_final
    (penv : Env) (scripts : list Item) (trace more : list (nat * Event))
    (vs : list JsVal) :
  settled (all (deliver_all_to trace (runAsync penv scripts))) = Fulfilled vs →
  settled (all (deliver_all_to (trace ++ more) (runAsync penv scripts))) = Fulfilled vs.
Proof.
  intros Hvs.
  pose proof (runAsync_fulfilled_fired _ _ _ _ Hvs) as Hfired.
  destruct (runAsync_fulfilled penv scripts trace vs Hvs) as [Hlen Hnth].
  destruct (runAsync_resolves penv scripts (trace ++ more)) as [vs' Hvs'].
  { intros i item Hi. rewrite events_of_app, first_firing_app.
    by destruct (Hfired i item Hi) as [v ->]. }
  rewrite Hvs'. f_equal.
  destruct (runAsync_fulfilled penv scripts _ vs' Hvs') as [Hlen' Hnth'].
  apply list_eq. intros i.
  destruct (scripts !! i) as [item|] eqn:Hi.
  - destruct (Hnth i item Hi) as (v & -> & Hv).
    destruct (Hnth' i item Hi) as (v' & -> & Hv').
    rewrite run_item_settled in Hv, Hv'.
    rewrite events_of_app, first_firing_app in Hv'.
    destruct (first_firing _ (events_of i trace)); [|done].
    congruence.
  - apply lookup_ge_None in Hi.
    rewrite !(proj2 (lookup_ge_None _ _)); [done|lia..].
Qed.

(** X9: [runAsync] of no request at all is fulfilled at once with the
    empty array, and stays so under every event. *)
Theorem runAsync_empty_batch (penv : Env) (trace : list (nat * Event)) :
  settled (all (runAsync penv [])) = Fulfilled []
  ∧ settled (all (deliver_all_to trace (runAsync penv []))) = Fulfilled [].
Proof.
  split; [done|].
  destruct (runAsync_resolves penv [] trace) as [vs Hvs]; [done|].
  destruct (runAsync_fulfilled penv [] trace vs Hvs) as [Hlen _].
  rewrite Hvs. by destruct vs.
Qed.

(** X10: handing the servers of [getServers] to [runAsync] starts one
    child per bundle, in the order of the bundles: a fork of
    [build/<name>.js] without arguments, or with [hot] a spawn of
    [scripts/nodemon] on that path; and no event changes what was
    started. *)
Theorem runAsync_of_servers_starts_each_bundle
    (penv : Env) (names : list string) (h : option bool) (w : Fs)
    (trace : list (nat * Event)) :
  let servers := (if truthy h then hot_server else cold_server) <$> names in
  (getServers (Some (mkServerParams (Some names) h)) w).1 = Normal servers
  ∧ launched <$> promises (deliver_all_to trace (runAsync penv servers)) =
    (λ n, if truthy h
          then Spawn "scripts/nodemon" ["build/" +:+ n +:+ ".js"] "inherit"
                 (child_env penv)
          else Fork ("build/" +:+ n +:+ ".js") [] false (child_env penv)) <$> names.
Proof.
  cbv zeta. split.
  - unfold getServers, bind, ret. cbn. by destruct (truthy h).
  - apply list_eq. intros i.
    rewrite !list_lookup_fmap, deliver_all_to_lookup.
    unfold runAsync, promise_all. cbn [promises].
    rewrite !list_lookup_fmap.
    destruct (names !! i) as [n|]; [|done].
    cbn [fmap option_fmap option_map]. rewrite deliver_all_launched.
    by destruct (truthy h).
Qed.

(** ** Strings put together *)

Lemma string_app_cons a s t : String a s +:+ t = String a (s +:+ t).
Proof. done. Qed.

Lemma string_app_assoc (s t u : string) : (s +:+ t) +:+ u = s +:+ t +:+ u.
Proof.
  induction s as [|a s IH]; [done|].
  by rewrite !string_app_cons, IH.
Qed.

Lemma string_length_app (s t : string) :
  String.length (s +:+ t) = (String.length s + String.length t)%nat.
Proof.
  induction s as [|a s IH]; [done|].
  rewrite string_app_cons. simpl. by rewrite IH.
Qed.

Lemma string_app_inj_r (s t suffix : string) :
  s +:+ suffix = t +:+ suffix → s = t.
Proof.
  revert t. induction s as [|a s IH]; intros [|b t] H; [done| | |].
  - apply (f_equal String.length) in H.
    rewrite !string_length_app in H. simpl in H. lia.
  - apply (f_equal String.length) in H.
    rewrite !string_length_app in H. simpl in H. lia.
  - rewrite !string_app_cons in H. injection H as -> H.
    f_equal. by apply IH.
Qed.

(** ** [copy] and [move] *)

Import Static.

Section StaticFacts.

Implicit Types (penv : Env) (items : list FileOp) (trace : list (nat * Event)).

Lemma exec_batch_is_runAsync penv (command : FileOp → string) items :
  promise_all ((λ item, run penv (command item) (Some exec_params)) <$> items) =
  runAsync penv ((λ item, Pair (command item) (Some exec_params)) <$> items).
Proof.
  unfold runAsync. f_equal. rewrite <- list_fmap_compose.
  by apply list_fmap_ext.
Qed.

(** X11: [copy] and [move] are [runAsync] over one request per item, in
    the order of the items, each with the method ['exec']: the child is
    a shell running [cp -a <target> <dest>], or [mv <target> <dest>], as
    one command line without an argument list, in the child environment,
    and it is awaited on [exit]. *)
Theorem copy_and_move_are_exec_batches penv items :
  copy penv items =
    runAsync penv
      ((λ item, Pair ("cp -a " +:+ target item +:+ " " +:+ dest item)
                  (Some (mkParams (Some "exec") None None))) <$> items)
  ∧ move penv items =
    runAsync penv
      ((λ item, Pair ("mv " +:+ target item +:+ " " +:+ dest item)
                  (Some (mkParams (Some "exec") None None))) <$> items)
  ∧ promises (copy penv items) =
    (λ item, mkRunning
               (Exec ("cp -a " +:+ target item +:+ " " +:+ dest item) (child_env penv))
               "exit" new_promise) <$> items
  ∧ promises (move penv items) =
    (λ item, mkRunning
               (Exec ("mv " +:+ target item +:+ " " +:+ dest item) (child_env penv))
               "exit" new_promise) <$> items.
Proof.
  split; [apply (exec_batch_is_runAsync penv cp_command)|].
  split; [apply (exec_batch_is_runAsync penv mv_command)|].
  split; unfold copy, move, promise_all; cbn [promises];
    by apply list_fmap_ext.
Qed.

Lemma exec_batch_codes penv (command : FileOp → string) items trace
    (codes : list JsVal) :
  length codes = length items →
  (∀ i c, codes !! i = Some c →
     first_firing "exit" (events_of i trace) = Some c) →
  settled (all (deliver_all_to trace
                  (promise_all ((λ item, run penv (command item) (Some exec_params))
                                  <$> items))))
  = Fulfilled codes.
Proof.
  intros Hlen Hcodes. rewrite exec_batch_is_runAsync.
  set (scripts := (λ item, Pair (command item) (Some exec_params)) <$> items).
  assert (Hexit : ∀ i item, scripts !! i = Some item →
            listens (run_item penv item) = "exit"
            ∧ ∃ c, codes !! i = Some c).
  { intros i item Hi. unfold scripts in Hi. rewrite list_lookup_fmap in Hi.
    destruct (items !! i) as [it|] eqn:Hit; [|done].
    injection Hi as <-. split; [done|].
    apply lookup_lt_is_Some. rewrite Hlen. by eapply lookup_lt_Some. }
  destruct (runAsync_resolves penv scripts trace) as [vs Hvs].
  { intros i item Hi. destruct (Hexit i item Hi) as [-> [c Hc]].
    rewrite (Hcodes i c Hc). eauto. }
  rewrite Hvs. f_equal.
  destruct (runAsync_fulfilled penv scripts trace vs Hvs) as [Hlen' Hnth].
  apply list_eq. intros i.
  destruct (scripts !! i) as [item|] eqn:Hi.
  - destruct (Hnth i item Hi) as (v & -> & Hv).
    destruct (Hexit i item Hi) as [Hl [c Hc]].
    rewrite run_item_settled, Hl, (Hcodes i c Hc) in Hv.
    rewrite Hc. congruence.
  - apply lookup_ge_None in Hi.
    assert (length scripts = length items) by (unfold scripts; apply length_fmap).
    rewrite !(proj2 (lookup_ge_None _ _)); [done|lia..].
Qed.

(** X12: when the shell of every item has exited, in whatever order,
    [copy] and [move] are fulfilled with the exit codes in the order of
    the items; a code that is not zero is a value like any other and
    does not reject. *)
Theorem copy_and_move_give_exit_codes penv items trace (codes : list JsVal) :
  length codes = length items →
  (∀ i c, codes !! i = Some c →
     first_firing "exit" (events_of i trace) = Some c) →
  settled (all (deliver_all_to trace (copy penv items))) = Fulfilled codes
  ∧ settled (all (deliver_all_to trace (move penv items))) = Fulfilled codes.
Proof. intros Hlen Hcodes. split; by apply exec_batch_codes. Qed.

(** X13: the paths go into the command line as they are, with no
    quoting: a space inside a path cannot be told from the space between
    target and destination, so two different items give the same
    command. *)
Theorem copy_and_move_do_not_quote (a b c : string) :
  cp_command (mkFileOp (a +:+ " " +:+ b) c) = cp_command (mkFileOp a (b +:+ " " +:+ c))
  ∧ mv_command (mkFileOp (a +:+ " " +:+ b) c) = mv_command (mkFileOp a (b +:+ " " +:+ c))
  ∧ mkFileOp (a +:+ " " +:+ b) c ≠ mkFileOp a (b +:+ " " +:+ c).
Proof.
  unfold cp_command, mv_command. cbn [target dest].
  split; [by rewrite !string_app_assoc|].
  split; [by rewrite !string_app_assoc|].
  intros [= H _]. apply (f_equal String.length) in H.
  rewrite !string_length_app in H. simpl in H. lia.
Qed.

End StaticFacts.

Lemma copy_and_move_give_exit_codes_witness :
  let items := [mkFileOp "app/public" "build/public"; mkFileOp "no/such" "build/x"] in
  let trace := [(1, ("exit", JNum 1)); (0, ("exit", JNum 0)); (1, ("close", JNum 1))] in
  let codes := [JNum 0; JNum 1] in
  length codes = length items
  ∧ settled (all (deliver_all_to trace (copy ∅ items))) = Fulfilled codes
  ∧ settled (all (deliver_all_to trace (move ∅ items))) = Fulfilled codes.
Proof.
  cbv zeta. split; [reflexivity|].
  apply (copy_and_move_give_exit_codes ∅
           [mkFileOp "app/public" "build/public"; mkFileOp "no/such" "build/x"]
           [(1, ("exit", JNum 1)); (0, ("exit", JNum 0)); (1, ("close", JNum 1))]
           [JNum 0; JNum 1]); [reflexivity|].
  intros [|[|i]] c H; simpl in H; inversion H; reflexivity.
Defined.

(** ** [getServers]: discovery *)

Section DiscoveryFacts.

Implicit Types (p : option ServerParams) (w : Fs) (names : list string).

Lemma cold_server_inj : Inj (=) (=) cold_server.
Proof.
  intros a b [= H]. apply String.app_inj in H. by apply string_app_inj_r in H.
Qed.

Lemma hot_server_inj : Inj (=) (=) hot_server.
Proof.
  intros a b [= H]. apply String.app_inj in H. by apply string_app_inj_r in H.
Qed.

(** X14: without [bundles], the call without argument included,
    [getServers] lists [app/bundles] under the working directory, once,
    and maps every entry, in the order of the listing, as it maps a
    given bundle name; nothing else of the file system is touched. *)
Theorem getServers_lists_bundle_directory p w (entries : list string) :
  let params := obj_or p (mkServerParams None None) in
  let dir := path_resolve (cwd w) ["app"; "bundles"] in
  bundles params = None →
  dirs w !! dir = Some entries →
  getServers p w =
    (Normal ((if truthy (hot params) then hot_server else cold_server) <$> entries),
     mkFs (cwd w) (dirs w) (listed w ++ [dir])).
Proof.
  cbv zeta. intros Hb Hdir.
  unfold getServers, bind, ret, process_cwd, readdirSync.
  rewrite Hb, Hdir. by destruct (truthy _).
Qed.

(** X15: without [bundles], what [readdirSync] throws for the bundle
    directory is thrown by [getServers] as it is, with [hot] or without,
    and no server is returned. *)
Theorem getServers_passes_listing_error_on p w (e : JsVal) (w' : Fs) :
  let params := obj_or p (mkServerParams None None) in
  bundles params = None →
  readdirSync (path_resolve (cwd w) ["app"; "bundles"]) w = (Throw e, w') →
  getServers p w = (Throw e, w').
Proof.
  cbv zeta. intros Hb Hthrow.
  unfold getServers, bind, ret, process_cwd.
  by rewrite Hb, Hthrow.
Qed.

(** X16: [getServers] gives one request per bundle name, and two
    requests are equal only for equal names: the requests are free of
    duplicates exactly when the names are. *)
Theorem getServers_keeps_bundles_apart names (h : option bool) w :
  ∃ items,
    (getServers (Some (mkServerParams (Some names) h)) w).1 = Normal items
    ∧ length items = length names
    ∧ (NoDup items ↔ NoDup names).
Proof.
  unfold getServers, bind, ret. cbn.
  destruct (truthy h); eexists; (split; [done|]);
    (split; [apply length_fmap|]).
  - apply (@NoDup_fmap _ _ hot_server hot_server_inj).
  - apply (@NoDup_fmap _ _ cold_server cold_server_inj).
Qed.

End DiscoveryFacts.

Lemma getServers_lists_bundle_directory_witness :
  let w := mkFs "/srv/app" {["/srv/app/app/bundles" := ["y.js"; "x.js"]]} [] in
  dirs w !! path_resolve (cwd w) ["app"; "bundles"] = Some ["y.js"; "x.js"]
  ∧ getServers None w =
    (Normal [cold_server "y.js"; cold_server "x.js"],
     mkFs "/srv/app" (dirs w) ["/srv/app/app/bundles"]).
Proof.
  cbv zeta. split; [reflexivity|].
  apply (getServers_lists_bundle_directory None
           (mkFs "/srv/app" {["/srv/app/app/bundles" := ["y.js"; "x.js"]]} [])
           ["y.js"; "x.js"]); reflexivity.
Defined.

Lemma getServers_passes_listing_error_on_witness :
  let w := mkFs "/srv/app" ∅ [] in
  let e := JError "ENOENT: no such file or directory, scandir /srv/app/app/bundles" in
  readdirSync (path_resolve (cwd w) ["app"; "bundles"]) w =
    (Throw e, mkFs "/srv/app" ∅ ["/srv/app/app/bundles"])
  ∧ getServers (Some (mkServerParams None (Some true))) w =
    (Throw e, mkFs "/srv/app" ∅ ["/srv/app/app/bundles"]).
Proof.
  cbv zeta. split; [reflexivity|].
  apply (getServers_passes_listing_error_on
           (Some (mkServerParams None (Some true))) (mkFs "/srv/app" ∅ [])); reflexivity.
Defined.

(** ** [compile] and [compileAndWatch] under every delivery *)

Import Passes.

Section DeliveryFacts.

Context {Config ErrorInfo Stats : Type}.
Variable toString : Stats → StatsOptions → string.

Implicit Types (config : Config) (err : option ErrorInfo) (st : Stats)
  (out : Console ErrorInfo) (deliveries : list (CallbackArgs ErrorInfo Stats)).

(** X17: when the engine calls back without stats, the callback of
    [compile] emits the error if there is one, throws the TypeError of
    the reporter back to the engine and does not reach [resolve]: the
    promise is left pending. *)
Theorem compile_without_stats_stays_pending config err out :
  compile_callback toString (err, None) (compile config out).2 =
    (Throw (JError "TypeError: Cannot read property 'toString' of undefined"),
     (out ++ error_lines err, mkPromise Pending 0))%list.
Proof. unfold compile. cbn [snd]. apply compile_callback_without_stats. Qed.

Lemma watch_passes deliveries out (initialRun : bool) p :
  passes (watch_callback toString) deliveries (out, (initialRun, p)) =
    ((out ++ concat (delivery_lines toString <$> deliveries))%list,
     if existsb has_stats deliveries
     then (false, if initialRun then resolve () p else p)
     else (initialRun, p)).
Proof.
  revert out initialRun p.
  induction deliveries as [|[err [st|]] deliveries IH]; intros out b p.
  - simpl. by rewrite app_nil_r.
  - rewrite passes_cons, watch_callback_with_stats. cbn [snd].
    rewrite IH. cbn [fmap list_fmap concat existsb has_stats snd orb].
    unfold delivery_lines at 2. cbn [fst snd].
    rewrite <- !app_assoc. by destruct (existsb has_stats deliveries).
  - rewrite passes_cons, watch_callback_without_stats. cbn [snd].
    rewrite IH. cbn [fmap list_fmap concat existsb has_stats snd orb].
    unfold delivery_lines at 2. cbn [fst snd].
    by rewrite app_nil_r, <- !app_assoc.
Qed.

(** X18: under every sequence of deliveries of the watch engine, the
    promise of [compileAndWatch] is fulfilled, by one call of [resolve]
    and with [initialRun] cleared, exactly when some delivery carried
    stats; a delivery without stats does not use up the first run. The
    console has, for every delivery in order, its error if there is one
    and then the rendering of its stats if there are stats, after what
    it had before. *)
Theorem compileAndWatch_session config deliveries out :
  passes (watch_callback toString) deliveries (compileAndWatch config out).2 =
    ((out ++ concat (delivery_lines toString <$> deliveries))%list,
     if existsb has_stats deliveries
     then (false, mkPromise (Fulfilled ()) 1)
     else (true, mkPromise Pending 0)).
Proof. unfold compileAndWatch. cbn [snd]. by rewrite watch_passes. Qed.

End DeliveryFacts.

(** ** Instances of the properties that have a precondition *)

Lemma run_other_method_spawns_witness :
  let params := mkParams (Some "Fork") (Some ["--port"; "3000"]) None in
  method params ≠ Some "fork"
  ∧ method params ≠ Some "exec"
  ∧ launched (run ∅ "build/app.js" (Some params)) =
    Spawn "build/app.js" ["--port"; "3000"] "inherit" (child_env ∅).
Proof.
  cbv zeta. split; [discriminate|]. split; [discriminate|].
  apply (run_other_method_spawns ∅ "build/app.js"
           (mkParams (Some "Fork") (Some ["--port"; "3000"]) None)); discriminate.
Defined.

Lemma runAsync_result_is_final_witness :
  let scripts := [Bare "build/a.js"; Bare "build/b.js"] in
  let trace := [(1, ("exit", JNum 0)); (0, ("exit", JNum 3))] in
  let more := [(0, ("exit", JNum 9)); (1, ("error", JError "late"))] in
  settled (all (deliver_all_to trace (runAsync ∅ scripts))) = Fulfilled [JNum 3; JNum 0]
  ∧ settled (all (deliver_all_to (trace ++ more) (runAsync ∅ scripts)))
    = Fulfilled [JNum 3; JNum 0].
Proof.
  cbv zeta. split; [reflexivity|].
  apply (runAsync_result_is_final ∅ [Bare "build/a.js"; Bare "build/b.js"]
           [(1, ("exit", JNum 0)); (0, ("exit", JNum 3))]
           [(0, ("exit", JNum 9)); (1, ("error", JError "late"))]
           [JNum 3; JNum 0]).
  reflexivity.
Defined.

(** * The calls as a whole *)

(** ** [run] with its executor *)

Section ExecutorRunFacts.

Implicit Types (os : Executor.Answers Launch) (penv : Env) (script : string)
  (params : option Params) (c : Executor.Call) (ev : Event) (evs : list Event).

Lemma executor_deliver_all_cons ev evs c :
  Executor.deliver_all (ev :: evs) c = Executor.deliver_all evs (Executor.deliver ev c).
Proof. done. Qed.

(** Without a handle no event does anything. *)
Lemma executor_deliver_all_refused evs c :
  Executor.listener c = None → Executor.deliver_all evs c = c.
Proof.
  intros Hc. induction evs as [|ev evs IH]; [done|].
  rewrite executor_deliver_all_cons. unfold Executor.deliver at 1.
  by rewrite Hc.
Qed.

Lemma executor_deliver_started ev c name :
  Executor.listener c = Some name →
  Executor.listener (Executor.deliver ev c) = Some name
  ∧ Executor.started (Executor.deliver ev c) = deliver ev (Executor.started c).
Proof.
  intros Hc. unfold Executor.deliver, deliver, Executor.started.
  rewrite Hc. cbn [listens default from_option id].
  repeat case_decide; cbn [Executor.listener Executor.asked Executor.promise];
    by rewrite ?Hc.
Qed.

(** With a handle, the promise of a call goes the way of the promise of
    a started run. *)
Lemma executor_deliver_all_started evs c name :
  Executor.listener c = Some name →
  Executor.listener (Executor.deliver_all evs c) = Some name
  ∧ Executor.started (Executor.deliver_all evs c) =
    deliver_all evs (Executor.started c).
Proof.
  revert c. induction evs as [|ev evs IH]; intros c Hc; [done|].
  destruct (executor_deliver_started ev c name Hc) as [Hl Hs].
  rewrite executor_deliver_all_cons.
  destruct (IH _ Hl) as [Hl' Hs']. split; [done|].
  by rewrite Hs', Hs.
Qed.

Lemma executor_run_refused os penv script params e :
  os (launch penv script (default no_params params)) = Some e →
  Executor.run os penv script params =
    Executor.mkCall (launch penv script (default no_params params)) None
      (mkPromise (Rejected e) 0) [].
Proof.
  intros Hos. unfold Executor.run.
  replace (obj_or params no_params) with (default no_params params)
    by by destruct params.
  by rewrite Hos.
Qed.

Lemma executor_run_started os penv script params :
  os (launch penv script (default no_params params)) = None →
  Executor.listener (Executor.run os penv script params) =
    Some (done_event (default no_params params))
  ∧ Executor.started (Executor.run os penv script params) = run penv script params.
Proof.
  intros Hos. unfold Executor.run, run, Executor.started.
  replace (obj_or params no_params) with (default no_params params)
    by by destruct params.
  by rewrite Hos.
Qed.

(** The event [run] awaits, read off the request. *)
Lemma done_event_of_request params :
  done_event (default no_params params) =
    match params with
    | Some (mkParams _ _ (Some name)) => if decide (name = "") then "exit" else name
    | _ => "exit"
    end.
Proof. by destruct params as [[m a [name|]]|]. Qed.

Lemma executor_run_settled os penv script params evs :
  os (launch penv script (default no_params params)) = None →
  settled (Executor.promise (Executor.deliver_all evs (Executor.run os penv script params))) =
    match first_firing (done_event (default no_params params)) evs with
    | Some v => Fulfilled v
    | None => Pending
    end.
Proof.
  intros Hos.
  destruct (executor_run_started os penv script params Hos) as [Hl Hs].
  destruct (executor_deliver_all_started evs _ _ Hl) as [_ Hs'].
  change (Executor.promise ?c) with (future (Executor.started c)).
  rewrite Hs', Hs, run_settled.
  by destruct params.
Qed.

(** C5, as the code has it: the promise of [run] settles at most once.
    When the [child_process] call throws inside the executor, the
    promise is rejected with what was thrown and no event changes that.
    When the call returns, the promise is never rejected: it is pending
    until the awaited event fires, which is the event named by
    [resolveOn], or [exit] when none or the empty name is given; the
    first firing fulfils it with the payload of that firing, and every
    later event, further firings included, leaves it as it is. *)
Theorem run_settles_at_most_once os penv script params (evs more : list Event) :
  let awaited :=
    match params with
    | Some (mkParams _ _ (Some name)) => if decide (name = "") then "exit" else name
    | _ => "exit"
    end in
  let c := Executor.run os penv script params in
  match os (launch penv script (default no_params params)) with
  | Some e =>
      settled (Executor.promise c) = Rejected e
      ∧ settled (Executor.promise (Executor.deliver_all evs c)) = Rejected e
  | None =>
      settled (Executor.promise (Executor.deliver_all evs c)) =
        match first_firing awaited evs with
        | Some v => Fulfilled v
        | None => Pending
        end
      ∧ settled (Executor.promise (Executor.deliver_all (evs ++ more) c)) =
        match first_firing awaited evs with
        | Some v => Fulfilled v
        | None => settled (Executor.promise (Executor.deliver_all more c))
        end
  end.
Proof.
  cbv zeta. rewrite <- done_event_of_request.
  destruct (os (launch penv script (default no_params params))) as [e|] eqn:Hos.
  - rewrite (executor_run_refused _ _ _ _ _ Hos).
    by rewrite executor_deliver_all_refused.
  - rewrite !executor_run_settled by done. split; [done|].
    rewrite first_firing_app. by destruct (first_firing _ evs).
Qed.

(** C5 as it is written fails: a child that was started, to be awaited
    on [message], and that exits without sending one leaves the promise
    pending after its last event. *)
Lemma run_unfired_event_stays_pending :
  let os : Executor.Answers Launch := λ _, None in
  settled (Executor.promise
             (Executor.deliver_all [("exit", JNum 0); ("close", JNum 0)]
                (Executor.run os ∅ "build/app.js"
                   (Some (mkParams (Some "fork") None (Some "message"))))))
  = Pending.
Proof. reflexivity. Qed.



End ExecutorRunFacts.


(** ** [compile] and [compileAndWatch] with their executors *)

Section ExecutorBuildFacts.

Context {Config ErrorInfo Stats : Type}.
Variable toString : Stats → StatsOptions → string.

Implicit Types (engine : Executor.Answers (EngineCall Config)) (config : Config)
  (err : option ErrorInfo) (st : Stats) (out : Console ErrorInfo)
  (deliveries : list (CallbackArgs ErrorInfo Stats)).







End ExecutorBuildFacts.



(** ** [runAsync] with the executors of its runs *)

Section ExecutorBatchFacts.

Implicit Types (os : Executor.Answers Launch) (penv : Env) (item : Item)
  (scripts : list Item) (j : Executor.Joined) (c : Executor.Call)
  (trace : list (nat * Event)) (ev : Event) (i : nat).

Lemma executor_deliver_all_to_cons iev trace j :
  Executor.deliver_all_to (iev :: trace) j =
    Executor.deliver_all_to trace (Executor.deliver_to iev j).
Proof. done. Qed.

(** A settled aggregate keeps its state under every event. *)
Lemma executor_deliver_to_settled iev j :
  settled (Executor.aggregate j) ≠ Pending →
  settled (Executor.aggregate (Executor.deliver_to iev j)) =
    settled (Executor.aggregate j).
Proof.
  intros Hs. destruct iev as [i ev]. unfold Executor.deliver_to.
  destruct (Executor.calls j !! i) as [c|]; [|done].
  destruct (settled (Executor.promise c)); [|done..].
  destruct (settled (Executor.promise (Executor.deliver ev c)));
    cbn [Executor.aggregate]; [done| |].
  - destruct (pred (Executor.unfilled j)); [|done].
    by apply resolve_settled.
  - unfold reject. cbn [settled]. by destruct (settled (Executor.aggregate j)).
Qed.

Lemma executor_deliver_all_to_settled trace j :
  settled (Executor.aggregate j) ≠ Pending →
  settled (Executor.aggregate (Executor.deliver_all_to trace j)) =
    settled (Executor.aggregate j).
Proof.
  revert j. induction trace as [|iev trace IH]; intros j Hs; [done|].
  rewrite executor_deliver_all_to_cons, IH.
  - by apply executor_deliver_to_settled.
  - by rewrite executor_deliver_to_settled.
Qed.

(** While every call has its handle, the batch goes the way of the
    batch of started runs. *)
Lemma executor_deliver_to_started iev j :
  Forall (λ c, is_Some (Executor.listener c)) (Executor.calls j) →
  Forall (λ c, is_Some (Executor.listener c))
    (Executor.calls (Executor.deliver_to iev j))
  ∧ Executor.started_batch (Executor.deliver_to iev j) =
    deliver_to iev (Executor.started_batch j).
Proof.
  intros Hall. destruct iev as [i ev].
  unfold Executor.deliver_to, deliver_to, Executor.started_batch at 2.
  cbn [promises values remaining all]. rewrite list_lookup_fmap.
  destruct (Executor.calls j !! i) as [c|] eqn:Hi; [|done].
  cbn [fmap option_fmap option_map].
  assert (is_Some (Executor.listener c)) as [name Hname].
  { rewrite Forall_lookup in Hall. by eapply Hall. }
  destruct (executor_deliver_started ev c name Hname) as [Hl Hs].
  rewrite <- Hs.
  change (future (Executor.started ?c)) with (Executor.promise c).
  assert (Hins : Forall (λ c, is_Some (Executor.listener c))
                   (<[i := Executor.deliver ev c]> (Executor.calls j))).
  { apply Forall_insert; [done|]. by rewrite Hl. }
  destruct (settled (Executor.promise c));
    [destruct (settled (Executor.promise (Executor.deliver ev c)))|..];
    cbn [Executor.calls]; (split; [done|]);
    unfold Executor.started_batch;
    cbn [Executor.calls Executor.slots Executor.unfilled Executor.aggregate];
    by rewrite list_fmap_insert.
Qed.

Lemma executor_deliver_all_to_started trace j :
  Forall (λ c, is_Some (Executor.listener c)) (Executor.calls j) →
  Executor.started_batch (Executor.deliver_all_to trace j) =
    deliver_all_to trace (Executor.started_batch j).
Proof.
  revert j. induction trace as [|iev trace IH]; intros j Hall; [done|].
  destruct (executor_deliver_to_started iev j Hall) as [Hall' Hs].
  by rewrite executor_deliver_all_to_cons, deliver_all_to_cons, IH, Hs.
Qed.

Lemma executor_run_item_cases os penv item :
  match os (launched (run_item penv item)) with
  | Some e =>
      Executor.listener (Executor.run_item os penv item) = None
      ∧ Executor.promise (Executor.run_item os penv item) = mkPromise (Rejected e) 0
  | None =>
      Executor.listener (Executor.run_item os penv item) =
        Some (listens (run_item penv item))
      ∧ Executor.started (Executor.run_item os penv item) = run_item penv item
  end.
Proof.
  destruct item as [s|s p]; unfold Executor.run_item, run_item, normalize,
    Executor.run, run, Executor.started; cbn [launched listens];
    by destruct (os _).
Qed.

Lemma executor_first_rejected os penv scripts :
  Executor.first_rejected (Executor.run_item os penv <$> scripts) =
    head (omap (λ item, os (launched (run_item penv item))) scripts).
Proof.
  induction scripts as [|item scripts IH]; [done|].
  rewrite fmap_cons. cbn [Executor.first_rejected omap list_omap].
  pose proof (executor_run_item_cases os penv item) as H.
  destruct (os (launched (run_item penv item))) as [e|].
  - destruct H as [_ ->]. done.
  - destruct H as [_ H].
    change (Executor.promise ?c) with (future (Executor.started c)).
    rewrite H. by destruct item.
Qed.

(** One call that throws rejects the aggregate from the start, with
    what the first such call threw, and for good. *)
Lemma executor_runAsync_thrown os penv scripts trace e :
  head (omap (λ item, os (launched (run_item penv item))) scripts) = Some e →
  settled (Executor.aggregate
             (Executor.deliver_all_to trace (Executor.runAsync os penv scripts)))
  = Rejected e.
Proof.
  intros He.
  assert (H0 : settled (Executor.aggregate (Executor.runAsync os penv scripts))
               = Rejected e).
  { unfold Executor.runAsync, Executor.promise_all. cbn [Executor.aggregate].
    by rewrite executor_first_rejected, He. }
  rewrite executor_deliver_all_to_settled; [done|]. by rewrite H0.
Qed.

(** When no call throws, the batch is the batch of started runs. *)
Lemma executor_runAsync_started os penv scripts trace :
  head (omap (λ item, os (launched (run_item penv item))) scripts) = None →
  Executor.started_batch
    (Executor.deliver_all_to trace (Executor.runAsync os penv scripts)) =
  deliver_all_to trace (runAsync penv scripts).
Proof.
  intros Hnone.
  assert (Hos : ∀ item, item ∈ scripts → os (launched (run_item penv item)) = None).
  { intros item Hin. destruct (os (launched (run_item penv item))) as [e|] eqn:E; [|done].
    assert (e ∈ omap (λ item, os (launched (run_item penv item))) scripts) as Hin'.
    { apply list_elem_of_omap. eauto. }
    destruct (omap _ scripts); [by apply not_elem_of_nil in Hin'|done]. }
  rewrite executor_deliver_all_to_started.
  - f_equal. unfold Executor.started_batch, Executor.runAsync, runAsync,
      Executor.promise_all, promise_all.
    cbn [Executor.calls Executor.slots Executor.unfilled Executor.aggregate].
    rewrite executor_first_rejected, Hnone, <- list_fmap_compose, !length_fmap.
    assert (Hfm : Executor.started ∘ Executor.run_item os penv <$> scripts
                  = run_item penv <$> scripts).
    { apply list_eq. intros i. rewrite !list_lookup_fmap.
      destruct (scripts !! i) as [item|] eqn:Hi; [|done].
      cbn. f_equal.
      pose proof (executor_run_item_cases os penv item) as H.
      rewrite (Hos item) in H by by eapply list_elem_of_lookup_2.
      by destruct H. }
    rewrite Hfm. by destruct scripts.
  - unfold Executor.runAsync, Executor.promise_all. cbn [Executor.calls].
    apply Forall_fmap, Forall_forall. intros item Hin. cbn.
    pose proof (executor_run_item_cases os penv item) as H.
    rewrite (Hos item Hin) in H. destruct H as [-> _]. eauto.
Qed.

End ExecutorBatchFacts.

Section ExecutorBatchResults.

Implicit Types (os : Executor.Answers Launch) (penv : Env) (item : Item)
  (scripts : list Item) (trace : list (nat * Event)) (i : nat).

(** The [child_process] call and the awaited event of an element of
    [scripts], read off the element. *)
Lemma run_item_launched penv item :
  launched (run_item penv item) =
    match item with
    | Bare s | Pair s None => Spawn s [] "inherit" (child_env penv)
    | Pair s (Some (mkParams m a _)) =>
        match m with
        | Some "fork" => Fork s (default [] a) false (child_env penv)
        | Some "exec" => Exec s (child_env penv)
        | _ => Spawn s (default [] a) "inherit" (child_env penv)
        end
    end.
Proof. destruct item as [s|s [[m a r]|]]; [done| |done]. by destruct a. Qed.

Lemma run_item_listens penv item :
  listens (run_item penv item) =
    match item with
    | Pair _ (Some (mkParams _ _ (Some name))) =>
        if decide (name = "") then "exit" else name
    | _ => "exit"
    end.
Proof. by destruct item as [s|s [[m a [name|]]|]]. Qed.

Lemma omap_pointwise {A B} (f g : A → option B) (l : list A) :
  (∀ x, f x = g x) → omap f l = omap g l.
Proof.
  intros H. induction l as [|x l IH]; [done|].
  cbn. by rewrite H, IH.
Qed.

Lemma run_item_thrown os penv scripts :
  omap (λ item, os
          match item with
          | Bare s | Pair s None => Spawn s [] "inherit" (child_env penv)
          | Pair s (Some (mkParams m a _)) =>
              match m with
              | Some "fork" => Fork s (default [] a) false (child_env penv)
              | Some "exec" => Exec s (child_env penv)
              | _ => Spawn s (default [] a) "inherit" (child_env penv)
              end
          end) scripts =
  omap (λ item, os (launched (run_item penv item))) scripts.
Proof.
  apply omap_pointwise. intros item. by rewrite run_item_launched.
Qed.

Lemma runAsync_same_events penv scripts trace trace' (vs : list JsVal) :
  settled (all (deliver_all_to trace (runAsync penv scripts))) = Fulfilled vs →
  (∀ i, events_of i trace' = events_of i trace) →
  settled (all (deliver_all_to trace' (runAsync penv scripts))) = Fulfilled vs.
Proof.
  intros Hvs Hsame.
  pose proof (runAsync_fulfilled_fired _ _ _ _ Hvs) as Hfired.
  destruct (runAsync_fulfilled penv scripts trace vs Hvs) as [Hlen Hnth].
  destruct (runAsync_resolves penv scripts trace') as [vs' Hvs'].
  { intros i item Hi. rewrite Hsame. by apply Hfired. }
  rewrite Hvs'. f_equal.
  destruct (runAsync_fulfilled penv scripts trace' vs' Hvs') as [Hlen' Hnth'].
  apply list_eq. intros i.
  destruct (scripts !! i) as [item|] eqn:Hi.
  - destruct (Hnth i item Hi) as (v & -> & Hv).
    destruct (Hnth' i item Hi) as (v' & -> & Hv').
    rewrite Hsame, Hv in Hv'. by injection Hv' as ->.
  - apply lookup_ge_None in Hi.
    rewrite !(proj2 (lookup_ge_None _ _)); [done|lia..].
Qed.

Lemma executor_aggregate_started (j : Executor.Joined) :
  Executor.aggregate j = all (Executor.started_batch j).
Proof. done. Qed.

Lemma executor_runAsync_not_thrown os penv scripts trace (vs : list JsVal) :
  settled (Executor.aggregate
             (Executor.deliver_all_to trace (Executor.runAsync os penv scripts)))
  = Fulfilled vs →
  head (omap (λ item, os (launched (run_item penv item))) scripts) = None.
Proof.
  intros Hvs.
  destruct (head (omap _ scripts)) as [e|] eqn:He; [|done].
  by rewrite (executor_runAsync_thrown _ _ _ _ _ He) in Hvs.
Qed.

(** C3: when the aggregate promise of [runAsync] is fulfilled, its array
    has one element per request; the [i]-th child is the one started
    for the [i]-th request, by the method, with the script and the
    arguments of that request, and the [i]-th element of the array is
    the payload of the first firing, among the events of that child, of
    the event the [i]-th request names, or of [exit] when it names none;
    so any other interleaving of the same events of each child fulfils
    the aggregate with the same array. *)
Theorem runAsync_results_in_request_order
    os penv scripts (trace trace' : list (nat * Event)) (vs : list JsVal) :
  let request item :=
    match item with
    | Bare s | Pair s None => Spawn s [] "inherit" (child_env penv)
    | Pair s (Some (mkParams m a _)) =>
        match m with
        | Some "fork" => Fork s (default [] a) false (child_env penv)
        | Some "exec" => Exec s (child_env penv)
        | _ => Spawn s (default [] a) "inherit" (child_env penv)
        end
    end in
  let awaited item :=
    match item with
    | Pair _ (Some (mkParams _ _ (Some name))) =>
        if decide (name = "") then "exit" else name
    | _ => "exit"
    end in
  let batch t := Executor.deliver_all_to t (Executor.runAsync os penv scripts) in
  settled (Executor.aggregate (batch trace)) = Fulfilled vs →
  length vs = length scripts
  ∧ (∀ i item, scripts !! i = Some item →
       Executor.asked <$> Executor.calls (batch trace) !! i = Some (request item)
       ∧ is_Some (vs !! i)
       ∧ vs !! i = first_firing (awaited item) (events_of i trace))
  ∧ ((∀ i, events_of i trace' = events_of i trace) →
     settled (Executor.aggregate (batch trace')) = Fulfilled vs).
Proof.
  cbv zeta. intros Hvs.
  pose proof (executor_runAsync_not_thrown _ _ _ _ _ Hvs) as Hnone.
  pose proof (executor_runAsync_started os penv scripts trace Hnone) as Hsim.
  pose proof (executor_runAsync_started os penv scripts trace' Hnone) as Hsim'.
  rewrite executor_aggregate_started, Hsim in Hvs.
  destruct (runAsync_fulfilled penv scripts trace vs Hvs) as [Hlen Hnth].
  split; [done|]. split.
  - intros i item Hi.
    destruct (Hnth i item Hi) as (v & Hv & Hs).
    rewrite run_item_settled, run_item_listens in Hs.
    split; [|split].
    + pose proof (runAsync_child penv scripts trace i item Hi) as Hc.
      rewrite <- Hsim in Hc. unfold Executor.started_batch in Hc.
      cbn [promises] in Hc. rewrite list_lookup_fmap in Hc.
      destruct (Executor.calls _ !! i) as [c|]; [|done].
      injection Hc as Hc. cbn.
      change (Executor.asked c) with (launched (Executor.started c)).
      by rewrite Hc, deliver_all_launched, run_item_launched.
    + by rewrite Hv.
    + rewrite Hv. by destruct (first_firing _ _); simplify_eq.
  - intros Hsame. rewrite executor_aggregate_started, Hsim'.
    by eapply runAsync_same_events.
Qed.

(** X6: the aggregate of [runAsync] under every trace.  When a
    [child_process] call throws inside the executor of its run, the
    aggregate is rejected with what the first such call, in the order
    of the requests, threw.  When none throws, it is fulfilled exactly
    when every child has emitted the event it is awaited on, and pending
    as long as one child has not. *)
Theorem runAsync_fulfilled_iff_all_fired os penv scripts trace :
  let request item :=
    match item with
    | Bare s | Pair s None => Spawn s [] "inherit" (child_env penv)
    | Pair s (Some (mkParams m a _)) =>
        match m with
        | Some "fork" => Fork s (default [] a) false (child_env penv)
        | Some "exec" => Exec s (child_env penv)
        | _ => Spawn s (default [] a) "inherit" (child_env penv)
        end
    end in
  let awaited item :=
    match item with
    | Pair _ (Some (mkParams _ _ (Some name))) =>
        if decide (name = "") then "exit" else name
    | _ => "exit"
    end in
  let final :=
    settled (Executor.aggregate
               (Executor.deliver_all_to trace (Executor.runAsync os penv scripts))) in
  match head (omap (λ item, os (request item)) scripts) with
  | Some e => final = Rejected e
  | None =>
      let fired := ∀ i item, scripts !! i = Some item →
        is_Some (first_firing (awaited item) (events_of i trace)) in
      ((∃ vs, final = Fulfilled vs) ↔ fired) ∧ (¬ fired → final = Pending)
  end.
Proof.
  cbv beta zeta.
  rewrite run_item_thrown.
  destruct (head (omap _ scripts)) as [e|] eqn:He.
  - by apply executor_runAsync_thrown.
  - rewrite executor_aggregate_started, (executor_runAsync_started _ _ _ _ He).
    assert (Hiff : (∃ vs, settled (all (deliver_all_to trace (runAsync penv scripts)))
                          = Fulfilled vs)
                   ↔ ∀ i item, scripts !! i = Some item →
                       is_Some (first_firing
                          match item with
                          | Pair _ (Some (mkParams _ _ (Some name))) =>
                              if decide (name = "") then "exit" else name
                          | _ => "exit"
                          end (events_of i trace))).
    { split.
      - intros [vs Hvs] i item Hi. rewrite <- (run_item_listens penv).
        by eapply runAsync_fulfilled_fired.
      - intros Hfired. apply runAsync_resolves. intros i item Hi.
        rewrite run_item_listens. by apply Hfired. }
    split; [exact Hiff|].
    intros Hnot.
    destruct (runAsync_pending_or_fulfilled penv scripts trace) as [H|H]; [done|].
    destruct Hnot. by apply Hiff.
Qed.

(** X7: no event of a child, an [error] event included, rejects the
    aggregate of [runAsync] or takes a rejection back: under every
    trace the aggregate is rejected exactly when it was from the start,
    which is when some [child_process] call threw inside the executor
    of its run. *)
Theorem runAsync_no_event_rejects os penv scripts trace :
  let request item :=
    match item with
    | Bare s | Pair s None => Spawn s [] "inherit" (child_env penv)
    | Pair s (Some (mkParams m a _)) =>
        match m with
        | Some "fork" => Fork s (default [] a) false (child_env penv)
        | Some "exec" => Exec s (child_env penv)
        | _ => Spawn s (default [] a) "inherit" (child_env penv)
        end
    end in
  is_rejected (Executor.aggregate
                 (Executor.deliver_all_to trace (Executor.runAsync os penv scripts)))
  = is_rejected (Executor.aggregate (Executor.runAsync os penv scripts))
  ∧ is_rejected (Executor.aggregate (Executor.runAsync os penv scripts))
  = match omap (λ item, os (request item)) scripts with
    | [] => false
    | _ :: _ => true
    end.
Proof.
  cbv beta zeta.
  rewrite run_item_thrown.
  unfold is_rejected.
  destruct (head (omap (λ item, os (launched (run_item penv item))) scripts))
    as [e|] eqn:He.
  - pose proof (executor_runAsync_thrown os penv scripts [] e He) as H0.
    change (Executor.deliver_all_to [] ?j) with j in H0.
    rewrite (executor_runAsync_thrown _ _ _ trace _ He), H0.
    by destruct (omap _ scripts).
  - pose proof (executor_runAsync_started os penv scripts [] He) as H0.
    change (Executor.deliver_all_to [] ?j) with j in H0.
    change (deliver_all_to [] ?j) with j in H0.
    rewrite !executor_aggregate_started.
    rewrite (executor_runAsync_started _ _ _ trace He), H0.
    destruct (omap _ scripts); [|done].
    pose proof (runAsync_pending_or_fulfilled penv scripts []) as P0.
    change (deliver_all_to [] ?j) with j in P0.
    destruct (runAsync_pending_or_fulfilled penv scripts trace) as [->|[vs ->]];
      by destruct P0 as [->|[vs' ->]].
Qed.

End ExecutorBatchResults.

(** A shell that takes a second to exit with code 3 and a forked server
    awaited on its first [message]: the server reports first, and the
    array still has the exit code of the shell first. *)
Lemma runAsync_results_in_request_order_witness :
  let os : Executor.Answers Launch := λ _, None in
  let scripts :=
    [Pair "sleep 1; exit 3" (Some (mkParams (Some "exec") None None));
     Pair "build/app.js" (Some (mkParams (Some "fork") None (Some "message")))] in
  let trace :=
    [(1, ("message", JStr "ready")); (0, ("exit", JNum 3)); (1, ("exit", JNum 0))] in
  let trace' :=
    [(0, ("exit", JNum 3)); (1, ("message", JStr "ready")); (1, ("exit", JNum 0))] in
  let vs := [JNum 3; JStr "ready"] in
  settled (Executor.aggregate
             (Executor.deliver_all_to trace (Executor.runAsync os ∅ scripts)))
  = Fulfilled vs
  ∧ length vs = length scripts
  ∧ Executor.asked <$>
      Executor.calls (Executor.deliver_all_to trace (Executor.runAsync os ∅ scripts)) !! 1
    = Some (Fork "build/app.js" [] false (child_env ∅))
  ∧ vs !! 1 = first_firing "message" (events_of 1 trace)
  ∧ settled (Executor.aggregate
               (Executor.deliver_all_to trace' (Executor.runAsync os ∅ scripts)))
    = Fulfilled vs.
Proof.
  cbv zeta.
  split; [reflexivity|].
  destruct (runAsync_results_in_request_order (λ _, None) ∅
              [Pair "sleep 1; exit 3" (Some (mkParams (Some "exec") None None));
               Pair "build/app.js" (Some (mkParams (Some "fork") None (Some "message")))]
              [(1, ("message", JStr "ready")); (0, ("exit", JNum 3));
               (1, ("exit", JNum 0))]
              [(0, ("exit", JNum 3)); (1, ("message", JStr "ready"));
               (1, ("exit", JNum 0))]
              [JNum 3; JStr "ready"] eq_refl) as (H1 & H2 & H3).
  split; [exact H1|].
  destruct (H2 1 _ eq_refl) as (Ha & _ & Hv).
  split; [exact Ha|]. split; [exact Hv|].
  apply H3. intros [|[|i]]; reflexivity.
Defined.
